(** * Campaign dashboard: state, sorting and persistence

    A shallow embedding of the [CampaignDashboard] component (the page
    component with its [useState] cells, its two [useEffect] hooks, the
    three handlers and the [sortedCampaigns] computation), together with
    the part of the JavaScript host it runs on: dynamic values and their
    coercions, [JSON.parse], [Array.prototype.sort], [localStorage] and a
    store of mutable arrays.

    Conventions.
    - A JavaScript number is an IEEE 754 binary64 value: Rocq's primitive
      [float].
    - A JavaScript string is a [string]: the sequence of its UTF-16 code
      units, each written as one to three bytes in the UTF-8 manner.  On
      ASCII text this is the text itself, and the byte-wise order of
      [String.ltb] is the code-unit order of the [<] operator.
    - A plain object (a campaign record) is a finite map from property
      names to values.  Records are never written to by the component, so
      they are immutable values here; arrays are written to in place by
      [sort], so arrays of records live in a store and are handled by
      reference. *)

From Stdlib Require Import ZArith List String Ascii Bool Floats Lia Permutation.
From Stdlib Require Import Sorted.
From Stdlib Require Import DecimalString.
From stdpp Require Import gmap strings list.

#[local] Set Warnings "-register-all".
#[local] Open Scope string_scope.
#[local] Open Scope Z_scope.

(** ** JavaScript values *)

Inductive value :=
| VUndefined
| VNull
| VBool (b : bool)
| VNum (x : float)
| VStr (s : string)
| VArr (l : list value)
| VObj (o : gmap string value).

(** A campaign record as the component meets it at run time. *)
Abbreviation Campaign := (gmap string value).

(** What the host provides and the component only calls.  These four
    functions are left open: every theorem below holds whatever they are. *)
Class Host := {
  (** [Number(s)]: the numeric value of a string, [nan] when it has none. *)
  StringToNumber : string -> float;
  (** [String(x)] for a number [x]. *)
  NumberToString : float -> string;
  (** [Date.parse(s)]: the time value of a date string, [nan] when invalid. *)
  Date_parse : string -> float;
  (** [JSON.stringify(campaigns)] for an array of records. *)
  JSON_stringify : list Campaign -> string
}.

(** ** Numbers *)

(** The number written [neg m * 10^e] in decimal, rounded to the nearest
    binary64 value (ties to even), as the evaluation of a numeric literal
    prescribes. *)
Definition decimal_to_number (neg : bool) (m : Z) (e : Z) : float :=
  match m with
  | Zpos p =>
      SF2Prim
        (if 0 <=? e
         then binary_round prec emax neg (p * Z.to_pos (10 ^ e)) 0
         else let '(q, e', l) :=
                SFdiv_core_binary prec emax (Zpos p) 0 (10 ^ (- e)) 0 in
              binary_round_aux prec emax neg q e' l)
  | _ => if neg then neg_zero else zero
  end.

Definition number_of_Z (z : Z) : float :=
  SF2Prim (binary_normalize prec emax z 0 false).

(** [truncate(x)] of a finite number, as a mathematical integer. *)
Definition truncate (x : float) : Z :=
  match Prim2SF x with
  | S754_finite s m e =>
      cond_Zopp s
        (match e with
         | Zneg k => Z.shiftr (Zpos m) (Zpos k)
         | _ => Z.shiftl (Zpos m) e
         end)
  | _ => 0
  end.

(** [TimeClip(t)]: the time value a [Date] object stores. *)
Definition TimeClip (t : float) : float :=
  if is_nan t || is_infinity t then nan
  else if (8.64e15 <? abs t)%float then nan
  else number_of_Z (truncate t).

(** ** Coercions *)

Section Coercions.
Context `{Host}.

(** [String(v)]; for an array, [Array.prototype.join] with a comma. *)
Fixpoint ToString (v : value) : string :=
  match v with
  | VUndefined => "undefined"
  | VNull => "null"
  | VBool true => "true"
  | VBool false => "false"
  | VNum x => NumberToString x
  | VStr s => s
  | VArr l =>
      String.concat ","
        (map (fun e => match e with
                       | VUndefined | VNull => EmptyString
                       | _ => ToString e
                       end) l)
  | VObj _ => "[object Object]"
  end.

(** [ToPrimitive(v)]: an array or a plain object has no primitive
    [valueOf], so its [toString] decides. *)
Definition ToPrimitive (v : value) : value :=
  match v with
  | VArr _ | VObj _ => VStr (ToString v)
  | _ => v
  end.

Definition ToNumber (v : value) : float :=
  match ToPrimitive v with
  | VUndefined => nan
  | VNull => zero
  | VBool true => one
  | VBool false => zero
  | VNum x => x
  | VStr s => StringToNumber s
  | VArr _ | VObj _ => nan
  end.

(** [x < y] *)
Definition js_lt (x y : value) : bool :=
  match ToPrimitive x, ToPrimitive y with
  | VStr s, VStr t => String.ltb s t
  | px, py => (ToNumber px <? ToNumber py)%float
  end.

(** [x - y] *)
Definition js_sub (x y : value) : float :=
  (ToNumber x - ToNumber y)%float.

(** [new Date(v).getTime()] *)
Definition Date_getTime (v : value) : float :=
  TimeClip (match ToPrimitive v with
            | VStr s => Date_parse s
            | p => ToNumber p
            end).

(** [v ?? d] *)
Definition nullish (v d : value) : value :=
  match v with
  | VUndefined | VNull => d
  | _ => v
  end.

(** [o[k]] for a plain object and a property name that [Object.prototype]
    does not define. *)
Definition get (o : Campaign) (k : string) : value :=
  default VUndefined (o !! k).

(** [v !== s] for a string [s] *)
Definition strict_ne_string (v : value) (s : string) : bool :=
  match v with
  | VStr t => negb (String.eqb t s)
  | _ => true
  end.
End Coercions.

(** The double quote character (code 34). *)
Abbreviation dquote := (Ascii false true false false false true false false).

(** ** Exceptions *)

Inductive Error := SyntaxError.

Inductive outcome (A : Type) :=
| Ok (a : A)
| Throw (e : Error).
Arguments Ok {A} a.
Arguments Throw {A} e.

(** ** [JSON.parse]

    A recursive-descent reader of the JSON grammar (ECMA-404).  The
    mutually recursive part runs on fuel; [JSONFacts.parse_text_total]
    shows that the fuel [JSON.parse] supplies is never exhausted. *)
Module JSON.

Inductive parsed (A : Type) :=
| Parsed (a : A) (rest : list ascii)
| Reject
| Starved.
Arguments Parsed {A} a rest.
Arguments Reject {A}.
Arguments Starved {A}.

Definition at_char (c : ascii) (lit : string) : bool :=
  match lit with
  | String c' _ => Ascii.eqb c c'
  | EmptyString => false
  end.

Definition is_ws (c : ascii) : bool :=
  let n := nat_of_ascii c in
  (n =? 32)%nat || (n =? 9)%nat || (n =? 10)%nat || (n =? 13)%nat.

Fixpoint skip_ws (cs : list ascii) : list ascii :=
  match cs with
  | c :: r => if is_ws c then skip_ws r else cs
  | [] => []
  end.

(** [strip word cs]: what follows [word] at the head of [cs]. *)
Fixpoint strip (word : string) (cs : list ascii) : option (list ascii) :=
  match word, cs with
  | EmptyString, _ => Some cs
  | String w word', c :: r => if Ascii.eqb c w then strip word' r else None
  | String _ _, [] => None
  end.

Definition digit (c : ascii) : option Z :=
  let n := Z.of_nat (nat_of_ascii c) in
  if (48 <=? n) && (n <=? 57) then Some (n - 48) else None.

Definition hex (c : ascii) : option Z :=
  let n := Z.of_nat (nat_of_ascii c) in
  if (48 <=? n) && (n <=? 57) then Some (n - 48)
  else if (65 <=? n) && (n <=? 70) then Some (n - 55)
  else if (97 <=? n) && (n <=? 102) then Some (n - 87)
  else None.

Definition byte (n : Z) : ascii := ascii_of_nat (Z.to_nat n).

(** The bytes that stand for one UTF-16 code unit. *)
Definition unit_bytes (n : Z) (s : string) : string :=
  if n <? 128 then String (byte n) s
  else if n <? 2048 then
    String (byte (192 + n / 64)) (String (byte (128 + n mod 64)) s)
  else
    String (byte (224 + n / 4096))
      (String (byte (128 + (n / 64) mod 64))
         (String (byte (128 + n mod 64)) s)).

(** The character a two-character escape stands for. *)
Definition unescape (c : ascii) : option ascii :=
  if Ascii.eqb c dquote then Some dquote
  else if at_char c "\" then Some c
  else if at_char c "/" then Some c
  else if at_char c "b" then Some (byte 8)
  else if at_char c "f" then Some (byte 12)
  else if at_char c "n" then Some (byte 10)
  else if at_char c "r" then Some (byte 13)
  else if at_char c "t" then Some (byte 9)
  else None.

(** The characters of a string literal after its opening quote, up to
    and including the closing quote. *)
Fixpoint string_body (cs : list ascii) : option (string * list ascii) :=
  match cs with
  | [] => None
  | c :: r =>
      if Ascii.eqb c dquote then Some (EmptyString, r)
      else if at_char c "\" then
        match r with
        | [] => None
        | e :: r1 =>
            if at_char e "u" then
              match r1 with
              | h1 :: h2 :: h3 :: h4 :: r2 =>
                  match hex h1, hex h2, hex h3, hex h4, string_body r2 with
                  | Some a, Some b, Some c, Some d, Some (s, r') =>
                      Some (unit_bytes (((a * 16 + b) * 16 + c) * 16 + d) s,
                            r')
                  | _, _, _, _, _ => None
                  end
              | _ => None
              end
            else
              match unescape e, string_body r1 with
              | Some c', Some (s, r') => Some (String c' s, r')
              | _, _ => None
              end
        end
      else if (nat_of_ascii c <? 32)%nat then None
      else
        match string_body r with
        | Some (s, r') => Some (String c s, r')
        | None => None
        end
  end.

(** The longest prefix of decimal digits, most significant first. *)
Fixpoint digits (cs : list ascii) : list Z * list ascii :=
  match cs with
  | c :: r =>
      match digit c with
      | Some d => let '(ds, r') := digits r in (d :: ds, r')
      | None => ([], cs)
      end
  | [] => ([], [])
  end.

Definition digits_value (ds : list Z) : Z :=
  fold_left (fun acc d => acc * 10 + d) ds 0.

(** An optional sign: whether it is a minus, and what follows it. *)
Definition sign (plus : bool) (cs : list ascii) : bool * list ascii :=
  match cs with
  | c :: r =>
      if at_char c "-" then (true, r)
      else if plus && at_char c "+" then (false, r)
      else (false, cs)
  | [] => (false, [])
  end.

(** [ . digits ]: the digits of the fraction, none when there is no
    fraction; [None] when the point is followed by no digit. *)
Definition fraction (cs : list ascii) : option (list Z * list ascii) :=
  match cs with
  | c :: r =>
      if at_char c "." then
        let '(fp, r') := digits r in
        match fp with
        | [] => None
        | _ => Some (fp, r')
        end
      else Some ([], cs)
  | [] => Some ([], [])
  end.

(** [ (e|E) [ + | - ] digits ]: the exponent, 0 when there is none;
    [None] when the letter is followed by no digit. *)
Definition exponent (cs : list ascii) : option (Z * list ascii) :=
  match cs with
  | c :: r =>
      if at_char c "e" || at_char c "E" then
        let '(neg, r1) := sign true r in
        let '(ep, r2) := digits r1 in
        match ep with
        | [] => None
        | _ => Some (cond_Zopp neg (digits_value ep), r2)
        end
      else Some (0, cs)
  | [] => Some (0, [])
  end.

(** number = [ - ] int [ . digits ] [ (e|E) [ + | - ] digits ], where
    int has no leading zero. *)
Definition parse_number (cs : list ascii) : option (float * list ascii) :=
  let '(neg, cs1) := sign false cs in
  let '(ip, cs2) := digits cs1 in
  match ip with
  | [] => None
  | 0 :: _ :: _ => None
  | _ =>
      match fraction cs2 with
      | None => None
      | Some (fp, cs3) =>
          match exponent cs3 with
          | None => None
          | Some (e, cs4) =>
              Some (decimal_to_number neg (digits_value (ip ++ fp))
                      (e - Z.of_nat (length fp)), cs4)
          end
      end
  end.

Definition keyword (cs : list ascii) : option (value * list ascii) :=
  match strip "null" cs, strip "true" cs, strip "false" cs with
  | Some r, _, _ => Some (VNull, r)
  | _, Some r, _ => Some (VBool true, r)
  | _, _, Some r => Some (VBool false, r)
  | None, None, None => None
  end.

(** A value that is neither an array nor an object. *)
Definition scalar (cs : list ascii) : option (value * list ascii) :=
  match cs with
  | [] => None
  | c :: r =>
      if Ascii.eqb c dquote then
        match string_body r with
        | Some (s, r') => Some (VStr s, r')
        | None => None
        end
      else
        match keyword cs with
        | Some vr => Some vr
        | None =>
            match parse_number cs with
            | Some (x, r') => Some (VNum x, r')
            | None => None
            end
        end
  end.

(** The object with the given members; of two members with one name the
    later one stays. *)
Definition object_of (kvs : list (string * value)) : gmap string value :=
  fold_left (fun o kv => <[kv.1 := kv.2]> o) kvs ∅.

(** [parse_value n cs] reads one value at the head of [cs];
    [parse_elements] reads the elements of an array, from the first one
    to the closing bracket; [parse_members] reads the members of an
    object, from the first name to the closing brace. *)
Fixpoint parse_value (n : nat) (cs : list ascii) : parsed value :=
  match n with
  | O => Starved
  | S n =>
      match cs with
      | [] => Reject
      | c :: r =>
          if at_char c "[" then
            match skip_ws r with
            | [] => Reject
            | c' :: r' =>
                if at_char c' "]" then Parsed (VArr []) r'
                else
                  match parse_elements n (c' :: r') with
                  | Parsed l r'' => Parsed (VArr l) r''
                  | Reject => Reject
                  | Starved => Starved
                  end
            end
          else if at_char c "{" then
            match skip_ws r with
            | [] => Reject
            | c' :: r' =>
                if at_char c' "}" then Parsed (VObj ∅) r'
                else
                  match parse_members n (c' :: r') with
                  | Parsed kvs r'' => Parsed (VObj (object_of kvs)) r''
                  | Reject => Reject
                  | Starved => Starved
                  end
            end
          else
            match scalar cs with
            | Some (v, r') => Parsed v r'
            | None => Reject
            end
      end
  end
with parse_elements (n : nat) (cs : list ascii) : parsed (list value) :=
  match n with
  | O => Starved
  | S n =>
      match parse_value n cs with
      | Parsed v r =>
          match skip_ws r with
          | [] => Reject
          | c :: r' =>
              if at_char c "," then
                match parse_elements n (skip_ws r') with
                | Parsed l r'' => Parsed (v :: l) r''
                | Reject => Reject
                | Starved => Starved
                end
              else if at_char c "]" then Parsed [v] r'
              else Reject
          end
      | Reject => Reject
      | Starved => Starved
      end
  end
with parse_members (n : nat) (cs : list ascii)
  : parsed (list (string * value)) :=
  match n with
  | O => Starved
  | S n =>
      match cs with
      | [] => Reject
      | q :: r =>
          if Ascii.eqb q dquote then
            match string_body r with
            | None => Reject
            | Some (k, r1) =>
                match skip_ws r1 with
                | [] => Reject
                | c :: r2 =>
                    if at_char c ":" then
                      match parse_value n (skip_ws r2) with
                      | Parsed v r3 =>
                          match skip_ws r3 with
                          | [] => Reject
                          | c' :: r4 =>
                              if at_char c' "," then
                                match parse_members n (skip_ws r4) with
                                | Parsed l r5 => Parsed ((k, v) :: l) r5
                                | Reject => Reject
                                | Starved => Starved
                                end
                              else if at_char c' "}" then Parsed [(k, v)] r4
                              else Reject
                          end
                      | Reject => Reject
                      | Starved => Starved
                      end
                    else Reject
                end
            end
          else Reject
      end
  end.

(** The run behind [JSON.parse(s)]: optional white space, one value,
    optional white space, end of text. *)
Definition parse_text (s : string) : parsed value :=
  let cs := skip_ws (list_ascii_of_string s) in
  match parse_value (2 * length cs + 1) cs with
  | Parsed v r =>
      match skip_ws r with
      | [] => Parsed v []
      | _ => Reject
      end
  | Reject => Reject
  | Starved => Starved
  end.

(** [JSON.parse(s)]: the value, or a [SyntaxError]. *)
Definition parse (s : string) : outcome value :=
  match parse_text s with
  | Parsed v _ => Ok v
  | _ => Throw SyntaxError
  end.

End JSON.

(** ** [Array.prototype.sort]

    The standard requires [sort] to be stable.  For a comparison function
    that orders the elements of the array consistently it fixes the
    result: the sorted arrangement that keeps equal elements in their
    order.  [Array_sort] computes that arrangement by insertion;
    [comparefn x y] negative or zero keeps [x] before [y].

    For a comparison function that is no consistent ordering of the
    elements (here: [NaN] among the values compared, or values of several
    kinds) the standard leaves the order of the result to the engine.
    [Array_sort] is then one of the rearrangements an engine may return;
    the one V8 returns is [V8.sort] below, and it can differ.  For a
    consistent ordering the two agree. *)
Section Sort.
Context {A : Type} (comparefn : A -> A -> Z).

Fixpoint insert_sorted (x : A) (l : list A) : list A :=
  match l with
  | [] => [x]
  | y :: l' =>
      if comparefn x y <=? 0 then x :: l else y :: insert_sorted x l'
  end.

Definition Array_sort (l : list A) : list A :=
  foldr insert_sorted [] l.
End Sort.

(** ** [Array.prototype.sort] in V8

    V8 sorts an array of fewer than 64 elements in one pass
    (third_party/v8/builtins/array-sort.tq): [CountAndMakeRun] finds the
    run at the head of the array, and reverses it when it is strictly
    descending; [BinaryInsertionSort] then puts every further element into
    the sorted part, at the place a binary search gives. *)
Module V8.
Section Sort.
Context {A : Type} (comparefn : A -> A -> Z).

(** The number of elements of [l] that continue the run ending in
    [previousElement]: a descending run ends at the first element that is
    not less than the one before it, an ascending run at the first element
    that is less. *)
Fixpoint run_tail (isDescending : bool) (previousElement : A) (l : list A)
  : nat :=
  match l with
  | [] => 0
  | currentElement :: l' =>
      let order := comparefn currentElement previousElement in
      if (if isDescending then 0 <=? order else order <? 0) then 0%nat
      else S (run_tail isDescending currentElement l')
  end.

(** [CountAndMakeRun(0, length)]: the length of the run at the head of the
    array, and the array with that run in ascending order. *)
Definition CountAndMakeRun (workArray : list A) : nat * list A :=
  match workArray with
  | elementHigh :: elementLow :: l =>
      let isDescending := comparefn elementLow elementHigh <? 0 in
      let runLength := (2 + run_tail isDescending elementLow l)%nat in
      (runLength,
       if isDescending
       then (rev (take runLength workArray) ++ drop runLength workArray)%list
       else workArray)
  | _ => (length workArray, workArray)
  end.

(** The loop [while (left < right)] of [BinaryInsertionSort]: the index
    at which [pivot] goes into the sorted part [workArray].  Every turn
    halves [right - left], so that [fuel] turns are enough when [fuel] is
    at least [right - left]. *)
Fixpoint search (fuel : nat) (pivot : A) (workArray : list A)
    (left right : nat) : nat :=
  match fuel with
  | O => left
  | S fuel =>
      if (left <? right)%nat then
        let mid := (left + Nat.div2 (right - left))%nat in
        match workArray !! mid with
        | Some x =>
            if comparefn pivot x <? 0
            then search fuel pivot workArray left mid
            else search fuel pivot workArray (S mid) right
        | None => left
        end
      else left
  end.

(** One turn of the outer loop of [BinaryInsertionSort]: the elements
    from the index found move one place to the right and [pivot] takes the
    index. *)
Definition insert_binary (sorted : list A) (pivot : A) : list A :=
  let left := search (length sorted) pivot sorted 0 (length sorted) in
  (take left sorted ++ pivot :: drop left sorted)%list.

(** [ArrayTimSortImpl] when the minimal run length is the length of the
    array: the run at the head, then the binary insertion of the rest. *)
Definition sort_short (l : list A) : list A :=
  let '(runLength, workArray) := CountAndMakeRun l in
  fold_left insert_binary (drop runLength workArray)
    (take runLength workArray).

(** The minimal run length is the length for fewer than 64 elements.  A
    longer array is cut into several runs that are merged; that part is not
    modelled. *)
Definition sort (l : list A) : option (list A) :=
  if (length l <? 64)%nat then Some (sort_short l) else None.
End Sort.
End V8.

(** ** The store of arrays

    An array is reached through a reference; [[...a]], [a.filter(f)] and an
    array literal allocate a new array, [a.sort(f)] writes into [a]. *)
Abbreviation loc := positive.
Abbreviation Store := (gmap loc (list Campaign)).

Definition alloc (l : list Campaign) (σ : Store) : loc * Store :=
  let r := fresh (dom σ) in (r, <[r := l]> σ).

(** The elements of the array at [r]. *)
Definition deref (σ : Store) (r : loc) : list Campaign :=
  default [] (σ !! r).

(** [r.sort(comparefn)]: sorts the array at [r] in place. *)
Definition sort_in_place (comparefn : Campaign -> Campaign -> Z)
    (r : loc) (σ : Store) : Store :=
  <[r := Array_sort comparefn (deref σ r)]> σ.

(** ** The component *)

(** Modelled from the spec: the declaration of [Campaign] (lib/types) is
    not among the sources; [keyof Campaign] is taken to be the seven fields
    of the data model and the sortable pseudo-field [profit] that the
    component compares [sortField] with. *)
Inductive Key :=
| K_id | K_name | K_startDate | K_endDate
| K_clicks | K_cost | K_revenue | K_profit.

Definition key_name (k : Key) : string :=
  match k with
  | K_id => "id"
  | K_name => "name"
  | K_startDate => "startDate"
  | K_endDate => "endDate"
  | K_clicks => "clicks"
  | K_cost => "cost"
  | K_revenue => "revenue"
  | K_profit => "profit"
  end.

Definition Key_eqb (j k : Key) : bool :=
  String.eqb (key_name j) (key_name k).

Inductive Direction := asc | desc.

(** The four [useState] cells. *)
Record Dashboard := {
  campaigns : loc;
  sortField : Key;
  sortDirection : Direction;
  isModalOpen : bool
}.

Definition setCampaigns (r : loc) (d : Dashboard) : Dashboard :=
  {| campaigns := r; sortField := sortField d;
     sortDirection := sortDirection d; isModalOpen := isModalOpen d |}.

Definition setSortField (k : Key) (d : Dashboard) : Dashboard :=
  {| campaigns := campaigns d; sortField := k;
     sortDirection := sortDirection d; isModalOpen := isModalOpen d |}.

Definition setSortDirection (dir : Direction) (d : Dashboard) : Dashboard :=
  {| campaigns := campaigns d; sortField := sortField d;
     sortDirection := dir; isModalOpen := isModalOpen d |}.

Definition setIsModalOpen (b : bool) (d : Dashboard) : Dashboard :=
  {| campaigns := campaigns d; sortField := sortField d;
     sortDirection := sortDirection d; isModalOpen := b |}.

(** [handleAddCampaign]: [setCampaigns([...campaigns, campaign])], then the
    modal is closed. *)
Definition handleAddCampaign (campaign : Campaign)
    (σ : Store) (d : Dashboard) : Store * Dashboard :=
  let '(r, σ') := alloc (deref σ (campaigns d) ++ [campaign]) σ in
  (σ', setIsModalOpen false (setCampaigns r d)).

(** [handleDeleteCampaign]:
    [setCampaigns(campaigns.filter((campaign) => campaign.id !== id))]. *)
Definition handleDeleteCampaign (id : string)
    (σ : Store) (d : Dashboard) : Store * Dashboard :=
  let '(r, σ') :=
    alloc (List.filter
             (fun campaign => strict_ne_string (get campaign "id") id)
             (deref σ (campaigns d))) σ in
  (σ', setCampaigns r d).

(** [handleSort] *)
Definition handleSort (field : Key) (d : Dashboard) : Dashboard :=
  if Key_eqb field (sortField d) then
    setSortDirection
      (match sortDirection d with asc => desc | desc => asc end) d
  else
    setSortDirection asc (setSortField field d).

Section Render.
Context `{Host}.

(** The value a record is compared by, before the fallback: the first
    three statements of the comparison function. *)
Definition resolved (sortField : Key) (a : Campaign) : value :=
  let aValue := get a (key_name sortField) in
  let aValue :=
    if Key_eqb sortField K_profit
    then VNum (js_sub (get a "revenue") (get a "cost"))
    else aValue in
  let aValue :=
    if Key_eqb sortField K_startDate || Key_eqb sortField K_endDate
    then VNum (Date_getTime (get a (key_name sortField)))
    else aValue in
  aValue.

(** [aVal]: the resolved value, or [0] in its absence. *)
Definition comparison_value (sortField : Key) (a : Campaign) : value :=
  nullish (resolved sortField a) (VNum 0).

(** The function passed to [sort]. *)
Definition compare_campaigns (sortField : Key) (sortDirection : Direction)
    (a b : Campaign) : Z :=
  let aVal := comparison_value sortField a in
  let bVal := comparison_value sortField b in
  if js_lt aVal bVal then
    match sortDirection with asc => -1 | desc => 1 end
  else if js_lt bVal aVal then
    match sortDirection with asc => 1 | desc => -1 end
  else 0.

(** [const sortedCampaigns = [...campaigns].sort(...)]: the reference of
    the array handed to the table, and the store after the copy was made
    and sorted. *)
Definition sortedCampaigns (σ : Store) (d : Dashboard) : loc * Store :=
  let '(r, σ') := alloc (deref σ (campaigns d)) σ in
  (r, sort_in_place
        (compare_campaigns (sortField d) (sortDirection d)) r σ').
End Render.

(** ** [localStorage] and the two effects *)

(** The storage holds one string per key and takes every write: a write
    refused for lack of room is not described. *)
Abbreviation Storage := (gmap string string).

Definition getItem (k : string) (ls : Storage) : option string := ls !! k.

Definition setItem (k v : string) (ls : Storage) : Storage := <[k := v]> ls.

(** A string is truthy unless it is empty. *)
Definition truthy (s : string) : bool :=
  match s with
  | EmptyString => false
  | String _ _ => true
  end.

(** The load effect.  [Ok (Some v)]: [setCampaigns(v)] was called;
    [Ok None]: it was not; [Throw e]: the effect raised [e]. *)
Definition load_effect (ls : Storage) : outcome (option value) :=
  match getItem "campaigns" ls with
  | Some savedCampaigns =>
      if truthy savedCampaigns then
        match JSON.parse savedCampaigns with
        | Ok v => Ok (Some v)
        | Throw e => Throw e
        end
      else Ok None
  | None => Ok None
  end.

(** The cast of a parsed value to the declared type [Campaign[]]: the
    array of its records, when it is one. *)
Definition as_record (v : value) : option Campaign :=
  match v with
  | VObj o => Some o
  | _ => None
  end.

Definition as_records (v : value) : option (list Campaign) :=
  match v with
  | VArr l => mapM as_record l
  | _ => None
  end.

(** The component between two events: the store of arrays, the state
    cells, [localStorage], and the array the last render handed to the
    table. *)
Record World := {
  store : Store;
  state : Dashboard;
  localStorage : Storage;
  rendered : loc
}.

(** The canonical collection: the array the [campaigns] cell refers to. *)
Definition items (w : World) : list Campaign :=
  deref (store w) (campaigns (state w)).

(** The sorted view: the array the table was given. *)
Definition view (w : World) : list Campaign :=
  deref (store w) (rendered w).

(** The [campaigns] cell refers to an array of the store. *)
Definition well_formed (w : World) : Prop :=
  is_Some (store w !! campaigns (state w)).

Inductive Event :=
| AddCampaign (campaign : Campaign)
| DeleteCampaign (id : string)
| SortBy (field : Key)
| SetModal (open : bool).

Definition handle (e : Event) (σ : Store) (d : Dashboard)
  : Store * Dashboard :=
  match e with
  | AddCampaign campaign => handleAddCampaign campaign σ d
  | DeleteCampaign id => handleDeleteCampaign id σ d
  | SortBy field => (σ, handleSort field d)
  | SetModal open => (σ, setIsModalOpen open d)
  end.

Section Lifecycle.
Context `{Host}.

(** The save effect:
    [localStorage.setItem("campaigns", JSON.stringify(campaigns))]. *)
Definition save_effect (σ : Store) (d : Dashboard) (ls : Storage)
  : Storage :=
  setItem "campaigns" (JSON_stringify (deref σ (campaigns d))) ls.

(** A render of the state [d] that follows a render of [prev], and the
    effects it schedules: the save effect depends on [[campaigns]] and
    runs when that reference is not the one of the previous render. *)
Definition rerender (prev : Dashboard) (σ : Store) (d : Dashboard)
    (ls : Storage) : World :=
  let '(r, σ') := sortedCampaigns σ d in
  {| store := σ';
     state := d;
     localStorage :=
       if Pos.eqb (campaigns d) (campaigns prev) then ls
       else save_effect σ' d ls;
     rendered := r |}.

(** One user event: its handler, then the render it causes. *)
Definition dispatch (e : Event) (w : World) : World :=
  let '(σ, d) := handle e (store w) (state w) in
  rerender (state w) σ d (localStorage w).

Inductive Mount :=
| Running (w : World)
| Uncaught (e : Error)
| IllTyped (v : value).

(** Mounting the component on a given [localStorage]: the first render
    with the initial state, the load effect, the save effect, and the
    second render when the load effect has set the collection.
    [Uncaught e]: the load effect raised [e].  [IllTyped v]: the
    [campaigns] cell received [v], which is no array of records; what the
    component does from there is not described. *)
Definition mount (ls : Storage) : Mount :=
  let '(r0, σ0) := alloc [] ∅ in
  let d0 := {| campaigns := r0; sortField := K_name;
               sortDirection := asc; isModalOpen := false |} in
  let '(v0, σ1) := sortedCampaigns σ0 d0 in
  match load_effect ls with
  | Throw e => Uncaught e
  | Ok loaded =>
      let ls1 := save_effect σ1 d0 ls in
      match loaded with
      | None =>
          Running {| store := σ1; state := d0;
                     localStorage := ls1; rendered := v0 |}
      | Some v =>
          match as_records v with
          | Some l =>
              let '(r, σ2) := alloc l σ1 in
              Running (rerender d0 σ2 (setCampaigns r d0) ls1)
          | None => IllTyped v
          end
      end
  end.

(** The worlds the component can be in: after mounting, and after any
    number of events. *)
Inductive reachable : World -> Prop :=
| reachable_mount ls w : mount ls = Running w -> reachable w
| reachable_dispatch e w : reachable w -> reachable (dispatch e w).

(** A sequence of [add] calls, one event each. *)
Definition add_all (cs : list Campaign) (w : World) : World :=
  fold_left (fun w c => dispatch (AddCampaign c) w) cs w.

(** The events that change the collection. *)
Definition is_mutation (e : Event) : bool :=
  match e with
  | AddCampaign _ | DeleteCampaign _ => true
  | _ => false
  end.
End Lifecycle.

(** ** A host to run examples on

    The theorems below hold for every [Host].  To evaluate the component on
    concrete inputs, here is one that implements the four functions on the
    inputs the examples use: decimal literals, integral numbers and ISO
    calendar dates ([YYYY-MM-DD], as a date input produces them).  On other
    inputs ([nan] for other numeric strings and date formats, no fraction
    digits when printing) it is a stand-in for the real one. *)
Module Sample.

Definition number_of_string (s : string) : float :=
  match JSON.skip_ws (list_ascii_of_string s) with
  | [] => zero
  | cs =>
      match JSON.parse_number cs with
      | Some (x, r) => match JSON.skip_ws r with [] => x | _ => nan end
      | None => nan
      end
  end.

Definition string_of_number (x : float) : string :=
  if is_nan x then "NaN"
  else if is_infinity x then
    if get_sign x then "-Infinity" else "Infinity"
  else NilZero.string_of_int (Z.to_int (truncate x)).

Definition leap (y : Z) : bool :=
  ((y mod 4 =? 0) && negb (y mod 100 =? 0)) || (y mod 400 =? 0).

Definition days_in_month (y m : Z) : Z :=
  if m =? 2 then (if leap y then 29 else 28)
  else if (m =? 4) || (m =? 6) || (m =? 9) || (m =? 11) then 30
  else 31.

(** Days from 1970-01-01 to the given day of the proleptic Gregorian
    calendar. *)
Definition days_from_civil (y m d : Z) : Z :=
  let y' := if m <=? 2 then y - 1 else y in
  let era := y' / 400 in
  let yoe := y' - era * 400 in
  let doy := (153 * (if 2 <? m then m - 3 else m + 9) + 2) / 5 + d - 1 in
  let doe := yoe * 365 + yoe / 4 - yoe / 100 + doy in
  era * 146097 + doe - 719468.

Definition date_parse (s : string) : float :=
  match list_ascii_of_string s with
  | [y1; y2; y3; y4; "-"%char; m1; m2; "-"%char; d1; d2] =>
      match mapM JSON.digit [y1; y2; y3; y4],
            mapM JSON.digit [m1; m2], mapM JSON.digit [d1; d2] with
      | Some ys, Some ms, Some ds =>
          let y := JSON.digits_value ys in
          let m := JSON.digits_value ms in
          let d := JSON.digits_value ds in
          if (1 <=? m) && (m <=? 12) && (1 <=? d) && (d <=? days_in_month y m)
          then number_of_Z (days_from_civil y m d * 86400000)
          else nan
      | _, _, _ => nan
      end
  | _ => nan
  end.

Definition hex_digit (n : Z) : ascii :=
  JSON.byte (if n <? 10 then 48 + n else 87 + n).

Fixpoint quote_body (s : string) : string :=
  match s with
  | EmptyString => String dquote EmptyString
  | String c r =>
      let n := Z.of_nat (nat_of_ascii c) in
      let plain := String c (quote_body r) in
      let escaped e := String "\"%char (String e (quote_body r)) in
      if n =? 34 then escaped dquote
      else if n =? 92 then escaped "\"%char
      else if n =? 8 then escaped "b"%char
      else if n =? 12 then escaped "f"%char
      else if n =? 10 then escaped "n"%char
      else if n =? 13 then escaped "r"%char
      else if n =? 9 then escaped "t"%char
      else if n <? 32 then
        "\u00" ++ String (hex_digit (n / 16))
                    (String (hex_digit (n mod 16)) (quote_body r))
      else plain
  end.

Definition quote (s : string) : string := String dquote (quote_body s).

Fixpoint stringify (v : value) : string :=
  match v with
  | VUndefined | VNull => "null"
  | VBool true => "true"
  | VBool false => "false"
  | VNum x =>
      if is_nan x || is_infinity x then "null" else string_of_number x
  | VStr s => quote s
  | VArr l => "[" ++ String.concat "," (map stringify l) ++ "]"
  | VObj o =>
      "{" ++ String.concat ","
               (map (fun kv => quote kv.1 ++ ":" ++ kv.2)
                  (map_to_list (stringify <$> o))) ++ "}"
  end.

#[export] Instance host : Host := {|
  StringToNumber := number_of_string;
  NumberToString := string_of_number;
  Date_parse := date_parse;
  JSON_stringify := fun l => stringify (VArr (VObj <$> l))
|}.

End Sample.


(** ** Example data *)
Module Ex.

(** A record as the form builds it. *)
Definition record (id name startDate endDate : string)
    (clicks cost revenue : float) : Campaign :=
  list_to_map
    [("id", VStr id); ("name", VStr name);
     ("startDate", VStr startDate); ("endDate", VStr endDate);
     ("clicks", VNum clicks); ("cost", VNum cost);
     ("revenue", VNum revenue)].

(** The two campaigns of the scenario: profit 30 and profit 90. *)
Definition a : Campaign :=
  record "a" "X" "2024-01-01" "2024-01-10" 100 50 80.
Definition b : Campaign :=
  record "b" "Y" "2024-02-01" "2024-02-10" 200 10 100.

(** Three campaigns with the same cost. *)
Definition t1 : Campaign :=
  record "t1" "One" "2024-03-01" "2024-03-02" 1 50 60.

(** A record that carries a stored [profit] at odds with its revenue and
    cost. *)
Definition with_profit : Campaign :=
  <["profit" := VNum 999]>
    (record "p" "P" "2024-01-01" "2024-01-02" 7 300 500).


(** Seven campaigns, three of them without [revenue]; their profits are
    NaN, NaN, 2, 1, NaN, 1 and 1. *)
Definition r0 : Campaign :=
  delete "revenue" (record "r0" "R0" "2024-01-01" "2024-01-02" 1 1 0).
Definition r1 : Campaign :=
  delete "revenue" (record "r1" "R1" "2024-01-01" "2024-01-02" 1 1 0).
Definition r2 : Campaign :=
  record "r2" "R2" "2024-01-01" "2024-01-02" 1 1 3.
Definition r3 : Campaign :=
  record "r3" "R3" "2024-01-01" "2024-01-02" 1 1 2.
Definition r4 : Campaign :=
  delete "revenue" (record "r4" "R4" "2024-01-01" "2024-01-02" 1 1 0).
Definition r5 : Campaign :=
  record "r5" "R5" "2024-01-01" "2024-01-02" 1 2 3.

(** A second record with the id of [a], as a hand-edited store can
    hold. *)
Definition a' : Campaign :=
  record "a" "Z" "2024-05-01" "2024-05-10" 5 5 5.

Definition dashboard (r : loc) (f : Key) (dir : Direction) : Dashboard :=
  {| campaigns := r; sortField := f; sortDirection := dir;
     isModalOpen := false |}.

(** A store with one array at reference 1. *)
Definition store_of (l : list Campaign) : Store := {[ 1%positive := l ]}.

Definition has_cost (x : float) (c : Campaign) : bool :=
  match get c "cost" with
  | VNum y => (y =? x)%float
  | _ => false
  end.


End Ex.

(** The world the sample host is in once the component has mounted on the
    storage [ls]. *)
Definition started (ls : Storage) : World :=
  match mount (H := Sample.host) ls with
  | Running w => w
  | _ => {| store := ∅; state := Ex.dashboard 1 K_name asc;
            localStorage := ls; rendered := 1%positive |}
  end.

(** The sort fields that are compared by the property itself: all but the
    derived [profit] and the two dates. *)
Definition plain_field (f : Key) : bool :=
  match f with
  | K_profit | K_startDate | K_endDate => false
  | _ => true
  end.

(** The [id] a record carries. *)
Definition id_of (c : Campaign) : value := get c "id".

(** The other direction. *)
Definition opposite (dir : Direction) : Direction :=
  match dir with
  | asc => desc
  | desc => asc
  end.

(** ** The table and the card

    The parts of [CampaignTable] and [CampaignCard] that compute: the icon
    of a column header, the columns, the profit of a row and its colour,
    the test for the empty message, and the argument of the delete
    button.  The texts of the cells come from [Intl] and are not
    described. *)
Module Table.

Inductive Icon := ChevronUpDown | ArrowUp | ArrowDown.

(** [renderSortIcon] *)
Definition renderSortIcon (sortField : Key) (sortDirection : Direction)
    (field : Key) : Icon :=
  if negb (Key_eqb sortField field) then ChevronUpDown
  else match sortDirection with asc => ArrowUp | desc => ArrowDown end.

Definition is_arrow (i : Icon) : bool :=
  match i with
  | ChevronUpDown => false
  | ArrowUp | ArrowDown => true
  end.

(** The sortable columns of the header row, in their order. *)
Definition columns : list Key :=
  [K_name; K_startDate; K_endDate; K_clicks; K_cost; K_revenue; K_profit].

Section Row.
Context `{Host}.

(** [const profit = campaign.revenue - campaign.cost] *)
Definition profit (campaign : Campaign) : float :=
  js_sub (get campaign "revenue") (get campaign "cost").

(** [const isProfitable = profit > 0] *)
Definition isProfitable (campaign : Campaign) : bool :=
  (0 <? profit campaign)%float.

(** The class of the profit cell. *)
Definition profit_className (campaign : Campaign) : string :=
  if isProfitable campaign then "text-green-600" else "text-red-600".
End Row.

(** [campaigns.length === 0], the test for the message that replaces the
    table. *)
Definition shows_empty_message (campaigns : list Campaign) : bool :=
  (length campaigns =? 0)%nat.

(** The event behind the delete button of a row,
    [onDelete(campaign.id)], for the ids the declared type allows:
    strings. *)
Definition delete_click (campaign : Campaign) : option Event :=
  match get campaign "id" with
  | VStr id => Some (DeleteCampaign id)
  | _ => None
  end.

End Table.

(** ** The form

    The values the form hands over once they passed [campaignFormSchema],
    the record [onSubmit] builds from them, and the checks of the schema
    as they read on those values. *)
Module Form.

Record CampaignFormValues := {
  name : string;
  startDate : string;
  endDate : string;
  clicks : float;
  cost : float;
  revenue : float
}.

Section Schema.
Context `{Host}.

(** The refinement:
    [new Date(data.endDate) >= new Date(data.startDate)]. *)
Definition dates_in_order (data : CampaignFormValues) : bool :=
  (Date_getTime (VStr (startDate data))
   <=? Date_getTime (VStr (endDate data)))%float.

(** What the schema checks of the values it lets through: [min(1)] on the
    three strings, [nonnegative()] on the three numbers, and the
    refinement. *)
Definition satisfies_schema (data : CampaignFormValues) : bool :=
  (1 <=? String.length (name data))%nat
  && (1 <=? String.length (startDate data))%nat
  && (1 <=? String.length (endDate data))%nat
  && (0 <=? clicks data)%float
  && (0 <=? cost data)%float
  && (0 <=? revenue data)%float
  && dates_in_order data.
End Schema.

(** [{ id: crypto.randomUUID(), ...values }], for the identifier [uuid]
    the generator returned. *)
Definition newCampaign (uuid : string) (values : CampaignFormValues)
  : Campaign :=
  <["revenue" := VNum (revenue values)]>
    (<["cost" := VNum (cost values)]>
       (<["clicks" := VNum (clicks values)]>
          (<["endDate" := VStr (endDate values)]>
             (<["startDate" := VStr (startDate values)]>
                (<["name" := VStr (name values)]>
                   (<["id" := VStr uuid]> ∅)))))).

(** [onSubmit]: the record goes to [onAddCampaign]. *)
Definition onSubmit (uuid : string) (values : CampaignFormValues) : Event :=
  AddCampaign (newCampaign uuid values).

End Form.

(** ** Orders on comparison values *)

(** A number other than [NaN]. *)
Definition is_number (v : value) : Prop :=
  exists x, v = VNum x /\ is_nan x = false.

Definition is_string (v : value) : Prop :=
  exists s, v = VStr s.

Section Order.
Context `{Host}.

(** [a] may stand before [b] in a view sorted by [f] in direction [dir]:
    ascending, [b] is not less than [a]; descending, [a] is not less than
    [b]. *)
Definition in_order (f : Key) (dir : Direction) (a b : Campaign) : Prop :=
  match dir with
  | asc => js_lt (comparison_value f b) (comparison_value f a) = false
  | desc => js_lt (comparison_value f a) (comparison_value f b) = false
  end.

(** Records whose comparison values are all numbers other than [NaN], or
    all strings. *)
Definition one_kind (f : Key) (l : list Campaign) : Prop :=
  Forall (fun c => is_number (comparison_value f c)) l
  \/ Forall (fun c => is_string (comparison_value f c)) l.
End Order.

(** A record that [onSubmit] built from values that satisfy the schema. *)
Definition built_by_form `{Host} (c : Campaign) : Prop :=
  exists uuid values,
    c = Form.newCampaign uuid values
    /\ Form.satisfies_schema values = true.

(** A world reached from the mount on an empty storage by the sample
    host. *)
Definition sample_world : World :=
  dispatch (H := Sample.host) (SortBy K_cost)
    (dispatch (H := Sample.host) (AddCampaign Ex.b)
       (dispatch (H := Sample.host) (AddCampaign Ex.a) (started ∅))).

(** Values as the form passes them on. *)
Definition sample_values : Form.CampaignFormValues :=
  {| Form.name := "X"; Form.startDate := "2024-01-01";
     Form.endDate := "2024-01-10"; Form.clicks := 100;
     Form.cost := 50; Form.revenue := 80 |}.
(** * Properties *)

(** ** The sort *)

Section SortFacts.
Context {A : Type} (comparefn : A -> A -> Z).

Lemma insert_sorted_perm (x : A) (l : list A) :
  insert_sorted comparefn x l ≡ₚ x :: l.
Proof.
  induction l as [|y l IH]; simpl; [done|].
  destruct (comparefn x y <=? 0); [done|].
  rewrite IH. apply Permutation_swap.
Qed.

Lemma Array_sort_perm (l : list A) : Array_sort comparefn l ≡ₚ l.
Proof.
  induction l as [|x l IH]; simpl; [done|].
  rewrite insert_sorted_perm. by rewrite IH.
Qed.

Lemma Array_sort_length (l : list A) :
  length (Array_sort comparefn l) = length l.
Proof. by rewrite Array_sort_perm. Qed.

(** Inserting [x] before the elements it does not follow puts it ahead of
    every member of a group it ties with. *)
Lemma filter_insert_sorted (group : A -> bool) (x : A) (l : list A) :
  (forall y, y ∈ l -> group x = true -> group y = true ->
             comparefn x y <= 0) ->
  List.filter group (insert_sorted comparefn x l)
  = List.filter group (x :: l).
Proof.
  induction l as [|y l IH]; intros Htie; [done|].
  cbn [insert_sorted].
  destruct (comparefn x y <=? 0) eqn:Hxy; [done|].
  apply Z.leb_gt in Hxy.
  assert (Hl : forall z, z ∈ l -> group x = true -> group z = true ->
                         comparefn x z <= 0).
  { intros z Hz. apply Htie. by right. }
  specialize (IH Hl). cbn [List.filter] in *. rewrite IH.
  destruct (group x) eqn:Hx, (group y) eqn:Hy; try done.
  exfalso. pose proof (Htie y ltac:(left) eq_refl Hy). lia.
Qed.

Lemma Array_sort_stable (group : A -> bool) (l : list A) :
  (forall x y, x ∈ l -> y ∈ l -> group x = true -> group y = true ->
               comparefn x y <= 0) ->
  List.filter group (Array_sort comparefn l) = List.filter group l.
Proof.
  induction l as [|x l IH]; intros Htie; [done|].
  cbn [Array_sort foldr]. fold (Array_sort comparefn l).
  rewrite filter_insert_sorted.
  - cbn [List.filter]. rewrite IH; [done|].
    intros a b Ha Hb. apply Htie; by right.
  - intros y Hy. rewrite Array_sort_perm in Hy.
    apply Htie; [by left | by right].
Qed.
(** For a comparison function that orders the elements consistently, the
    result is in order. *)
Lemma insert_sorted_sorted (x : A) (l : list A) :
  (forall y, comparefn x y > 0 -> comparefn y x <= 0) ->
  (forall a b c, comparefn a b <= 0 -> comparefn b c <= 0 ->
                 comparefn a c <= 0) ->
  StronglySorted (fun a b => comparefn a b <= 0) l ->
  StronglySorted (fun a b => comparefn a b <= 0)
    (insert_sorted comparefn x l).
Proof.
  intros Htotal Htrans. induction 1 as [|y l Hl IH Hy]; cbn.
  - repeat constructor.
  - destruct (comparefn x y <=? 0) eqn:Hxy.
    + apply Z.leb_le in Hxy. constructor; [by constructor|].
      constructor; [done|].
      eapply Forall_impl; [exact Hy|]. intros z Hz. by eapply Htrans.
    + apply Z.leb_gt in Hxy. constructor; [done|].
      rewrite insert_sorted_perm. constructor; [|done].
      apply Htotal. lia.
Qed.

Lemma Array_sort_sorted (l : list A) :
  (forall x y, comparefn x y > 0 -> comparefn y x <= 0) ->
  (forall a b c, comparefn a b <= 0 -> comparefn b c <= 0 ->
                 comparefn a c <= 0) ->
  StronglySorted (fun a b => comparefn a b <= 0) (Array_sort comparefn l).
Proof.
  intros Htotal Htrans. induction l as [|x l IH]; cbn.
  - constructor.
  - apply insert_sorted_sorted; auto.
Qed.
End SortFacts.

(** ** The order on values *)




Section OrderFacts.
Context `{Host}.


End OrderFacts.

(** ** The store *)

Lemma alloc_spec (l : list Campaign) (σ : Store) :
  let r := (alloc l σ).1 in
  σ !! r = None /\ (alloc l σ).2 = <[r := l]> σ.
Proof.
  cbn. split; [|done].
  apply not_elem_of_dom. apply is_fresh.
Qed.

Lemma alloc_ne (l : list Campaign) (σ : Store) (r : loc) :
  is_Some (σ !! r) -> (alloc l σ).1 <> r.
Proof.
  intros [x Hx] Heq. destruct (alloc_spec l σ) as [Hnone _].
  cbn in Hnone, Heq. congruence.
Qed.

Lemma deref_insert_eq (σ : Store) (r : loc) (l : list Campaign) :
  deref (<[r := l]> σ) r = l.
Proof. unfold deref. by rewrite lookup_insert_eq. Qed.

Lemma deref_insert_ne (σ : Store) (r r' : loc) (l : list Campaign) :
  r <> r' -> deref (<[r := l]> σ) r' = deref σ r'.
Proof. intros. unfold deref. by rewrite lookup_insert_ne. Qed.

Section RenderFacts.
Context `{Host}.

(** What a render leaves in the store: one new array, holding the sorted
    copy; every other reference is as before. *)
Lemma sortedCampaigns_spec (σ : Store) (d : Dashboard) :
  let r := (sortedCampaigns σ d).1 in
  let σ' := (sortedCampaigns σ d).2 in
  σ !! r = None /\
  σ' = <[r := Array_sort (compare_campaigns (sortField d) (sortDirection d))
                (deref σ (campaigns d))]> σ.
Proof.
  unfold sortedCampaigns, sort_in_place, alloc. cbn.
  split.
  - apply not_elem_of_dom, is_fresh.
  - by rewrite deref_insert_eq, insert_insert_eq.
Qed.
End RenderFacts.

(** ** The sorted view *)

Section ViewFacts.
Context `{Host}.


(** C6.  Computing the sorted view allocates a new array and leaves the
    canonical collection as it was: the array the [campaigns] cell refers
    to keeps its elements in their order, every array that existed keeps
    its contents, and the new array is a rearrangement of the
    collection. *)
Theorem sortedCampaigns_frame (σ : Store) (d : Dashboard)
    (l : list Campaign) :
  σ !! campaigns d = Some l ->
  let r := (sortedCampaigns σ d).1 in
  let σ' := (sortedCampaigns σ d).2 in
  σ !! r = None
  /\ r <> campaigns d
  /\ σ' !! campaigns d = Some l
  /\ (forall r', is_Some (σ !! r') -> σ' !! r' = σ !! r')
  /\ deref σ' r ≡ₚ l.
Proof.
  intros Hl r σ'.
  destruct (sortedCampaigns_spec σ d) as [Hnew Hσ'].
  fold r in Hnew. fold r σ' in Hσ'.
  assert (Hframe : forall r', is_Some (σ !! r') -> σ' !! r' = σ !! r').
  { intros r' [x Hx]. rewrite Hσ'. apply lookup_insert_ne. congruence. }
  split_and!; [done|congruence| |done|].
  - rewrite Hframe; [done|by eexists].
  - rewrite Hσ', deref_insert_eq, Array_sort_perm.
    unfold deref. by rewrite Hl.
Qed.

(** C4.  Sorting by profit compares every record by its revenue minus
    its cost.  The value does not depend on a [profit] property of the
    record, stored or not; when revenue and cost are numbers it is their
    difference. *)
Theorem profit_comparison_value (a : Campaign) :
  comparison_value K_profit a
  = VNum (js_sub (get a "revenue") (get a "cost"))
  /\ (forall p,
         comparison_value K_profit (<["profit" := p]> a)
         = comparison_value K_profit a)
  /\ comparison_value K_profit (delete "profit" a)
     = comparison_value K_profit a
  /\ (forall revenue cost,
         a !! "revenue" = Some (VNum revenue) ->
         a !! "cost" = Some (VNum cost) ->
         comparison_value K_profit a = VNum (revenue - cost)%float).
Proof.
  unfold comparison_value, resolved, get. cbn.
  split_and!; [done| | |].
  - intros p. by rewrite !lookup_insert_ne.
  - by rewrite !lookup_delete_ne.
  - intros revenue cost -> ->. done.
Qed.

(** The resolved value is undefined only for a plain field that the
    record does not hold (or holds as [undefined]): for [profit] and for
    the two dates it is always a number. *)
Lemma resolved_undefined (f : Key) (a : Campaign) :
  resolved f a = VUndefined <->
  plain_field f = true /\ get a (key_name f) = VUndefined.
Proof.
  unfold resolved. destruct f; cbn; split;
    try (intros [? ?]); try done; intros ->; done.
Qed.

Lemma resolved_null (f : Key) (a : Campaign) :
  resolved f a = VNull <->
  plain_field f = true /\ get a (key_name f) = VNull.
Proof.
  unfold resolved. destruct f; cbn; split;
    try (intros [? ?]); try done; intros ->; done.
Qed.

End ViewFacts.

(** ** The handlers *)

Lemma Key_eqb_eq (j k : Key) : Key_eqb j k = true <-> j = k.
Proof. by destruct j, k. Qed.

Lemma Key_eqb_refl (k : Key) : Key_eqb k k = true.
Proof. by apply Key_eqb_eq. Qed.

Lemma Key_eqb_ne (j k : Key) : j <> k -> Key_eqb j k = false.
Proof.
  intros Hne. destruct (Key_eqb j k) eqn:E; [|done].
  by apply Key_eqb_eq in E.
Qed.

(** C5.  [handleSort] with the current sort field flips the direction and
    keeps the field; with another field it installs that field and sets
    the direction to ascending.  Called twice with [cost], it leaves
    [cost] as the sort field and the direction opposite to the one the
    first call left.  The collection and the modal flag are untouched. *)
Theorem handleSort_toggle (d : Dashboard) (field : Key) :
  (field = sortField d ->
     sortField (handleSort field d) = sortField d
     /\ sortDirection (handleSort field d) = opposite (sortDirection d))
  /\ (field <> sortField d ->
     sortField (handleSort field d) = field
     /\ sortDirection (handleSort field d) = asc)
  /\ sortField (handleSort K_cost (handleSort K_cost d)) = K_cost
  /\ sortDirection (handleSort K_cost (handleSort K_cost d))
     = opposite (sortDirection (handleSort K_cost d))
  /\ campaigns (handleSort field d) = campaigns d
  /\ isModalOpen (handleSort field d) = isModalOpen d.
Proof.
  assert (Hsame : forall d', sortField d' = K_cost ->
             handleSort K_cost d'
             = setSortDirection (opposite (sortDirection d')) d').
  { intros d' Hd'. unfold handleSort. by rewrite Hd'. }
  assert (Hfirst : sortField (handleSort K_cost d) = K_cost).
  { unfold handleSort. destruct (Key_eqb K_cost (sortField d)) eqn:E; [|done].
    apply Key_eqb_eq in E. cbn. congruence. }
  split_and!.
  - intros ->. unfold handleSort. by rewrite Key_eqb_refl.
  - intros Hne. unfold handleSort. by rewrite Key_eqb_ne.
  - by rewrite Hsame.
  - by rewrite (Hsame _ Hfirst).
  - unfold handleSort. by destruct (Key_eqb field (sortField d)).
  - unfold handleSort. by destruct (Key_eqb field (sortField d)).
Qed.

Lemma strict_ne_string_false (v : value) (s : string) :
  strict_ne_string v s = false <-> v = VStr s.
Proof.
  destruct v; cbn; try (split; [done|discriminate]).
  rewrite negb_false_iff, String.eqb_eq. split; congruence.
Qed.

(** What the two handlers leave at the new [campaigns] reference. *)
Lemma handleAddCampaign_items (c : Campaign) (σ : Store) (d : Dashboard) :
  deref (handleAddCampaign c σ d).1 (campaigns (handleAddCampaign c σ d).2)
  = (deref σ (campaigns d) ++ [c])%list.
Proof. unfold handleAddCampaign. cbn. by rewrite deref_insert_eq. Qed.

Lemma handleDeleteCampaign_items (id : string) (σ : Store) (d : Dashboard) :
  deref (handleDeleteCampaign id σ d).1
    (campaigns (handleDeleteCampaign id σ d).2)
  = List.filter (fun c => strict_ne_string (id_of c) id)
      (deref σ (campaigns d)).
Proof. unfold handleDeleteCampaign. cbn. by rewrite deref_insert_eq. Qed.

(** Removing an id that at most one record carries. *)
Lemma filter_id_length (id : string) (l : list Campaign) :
  NoDup (id_of <$> l) ->
  (length l <= S (length (List.filter
                            (fun c => strict_ne_string (id_of c) id) l)))%nat.
Proof.
  induction l as [|c l IH]; intros Hnd; cbn; [lia|].
  apply NoDup_cons in Hnd as [Hc Hnd].
  destruct (strict_ne_string (id_of c) id) eqn:E; cbn.
  - specialize (IH Hnd). lia.
  - apply strict_ne_string_false in E.
    assert (Hkeep : List.filter (fun c => strict_ne_string (id_of c) id) l
                    = l).
    { apply forallb_filter_id, forallb_forall. intros c' Hc'.
      destruct (strict_ne_string (id_of c') id) eqn:E'; [done|].
      apply strict_ne_string_false in E'. exfalso. apply Hc.
      rewrite E, <- E'. apply list_elem_of_fmap_2.
      by apply list_elem_of_In. }
    rewrite Hkeep. lia.
Qed.

(** C7, as amended.  [handleDeleteCampaign] never makes the collection
    longer, and when the ids of the collection are pairwise distinct it
    makes it shorter by at most one record. *)
Theorem handleDeleteCampaign_size (id : string) (σ : Store) (d : Dashboard) :
  let before := deref σ (campaigns d) in
  let after := deref (handleDeleteCampaign id σ d).1
                 (campaigns (handleDeleteCampaign id σ d).2) in
  (length after <= length before)%nat
  /\ (NoDup (id_of <$> before) -> (length before <= S (length after))%nat).
Proof.
  intros before after. unfold after.
  rewrite handleDeleteCampaign_items. fold before. split.
  - apply List.filter_length_le.
  - apply filter_id_length.
Qed.

(** C10.  [handleDeleteCampaign] removes every record whose id is the
    given string, however many there are, and keeps the others in their
    order: no record with that id is left, and any group of records with
    other ids reads the same before and after. *)
Theorem handleDeleteCampaign_all (id : string) (σ : Store) (d : Dashboard) :
  let before := deref σ (campaigns d) in
  let after := deref (handleDeleteCampaign id σ d).1
                 (campaigns (handleDeleteCampaign id σ d).2) in
  Forall (fun c => id_of c <> VStr id) after
  /\ after `sublist_of` before
  /\ (forall group : Campaign -> bool,
         (forall c, c ∈ before -> group c = true -> id_of c <> VStr id) ->
         List.filter group after = List.filter group before)
  /\ (length after + length (List.filter
                               (fun c => negb (strict_ne_string (id_of c) id))
                               before))%nat
     = length before.
Proof.
  intros before after. unfold after.
  rewrite handleDeleteCampaign_items. fold before. clear after.
  split_and!.
  - apply Forall_forall. intros c Hc%list_elem_of_In%filter_In.
    destruct Hc as [_ Hc]. intros Hid%strict_ne_string_false. congruence.
  - induction before as [|c l IH]; cbn; [done|].
    destruct (strict_ne_string (id_of c) id).
    + by apply sublist_skip.
    + by apply sublist_cons.
  - intros group Hgroup.
    induction before as [|c l IH]; cbn; [done|].
    assert (Hl : forall c', c' ∈ l -> group c' = true -> id_of c' <> VStr id).
    { intros c' Hc'. apply Hgroup. by right. }
    destruct (strict_ne_string (id_of c) id) eqn:E; cbn; rewrite (IH Hl);
      [done|].
    destruct (group c) eqn:G; [|done].
    apply strict_ne_string_false in E.
    by apply (Hgroup c ltac:(left)) in G.
  - induction before as [|c l IH]; cbn; [done|].
    destruct (strict_ne_string (id_of c) id); cbn; lia.
Qed.

(** ** [JSON.parse] terminates within its fuel *)

Module JSONFacts.
Import JSON.

Lemma skip_ws_length (cs : list ascii) :
  (length (skip_ws cs) <= length cs)%nat.
Proof.
  induction cs as [|c cs IH]; cbn; [lia|].
  destruct (is_ws c); cbn; lia.
Qed.

Lemma string_body_bounded (n : nat) :
  forall cs s r, (length cs < n)%nat -> string_body cs = Some (s, r) ->
                 (length r < length cs)%nat.
Proof.
  induction n as [|n IH]; intros cs s r Hn; [lia|].
  destruct cs as [|c cs]; cbn [string_body]; [done|].
  destruct (Ascii.eqb c dquote).
  { intros [= <- <-]. cbn. lia. }
  destruct (at_char c "\").
  - destruct cs as [|e r1]; [done|].
    destruct (at_char e "u").
    + destruct r1 as [|h1 [|h2 [|h3 [|h4 r2]]]]; try done.
      destruct (hex h1), (hex h2), (hex h3), (hex h4); try done.
      destruct (string_body r2) as [[s' r']|] eqn:E; [|done].
      intros [= <- <-]. apply IH in E; cbn in *; lia.
    + destruct (unescape e); [|done].
      destruct (string_body r1) as [[s' r']|] eqn:E; [|done].
      intros [= <- <-]. apply IH in E; cbn in *; lia.
  - destruct (nat_of_ascii c <? 32)%nat; [done|].
    destruct (string_body cs) as [[s' r']|] eqn:E; [|done].
    intros [= <- <-]. apply IH in E; cbn in *; lia.
Qed.

Lemma string_body_length (cs : list ascii) s r :
  string_body cs = Some (s, r) -> (length r < length cs)%nat.
Proof. apply (string_body_bounded (S (length cs))). lia. Qed.

Lemma digits_length (cs : list ascii) :
  (length (digits cs).2 + length (digits cs).1 = length cs)%nat.
Proof.
  induction cs as [|c cs IH]; cbn [digits]; [done|].
  destruct (digit c); [|cbn; lia].
  destruct (digits cs) as [ds r]. cbn in *. lia.
Qed.

Lemma sign_length (plus : bool) (cs : list ascii) :
  (length (sign plus cs).2 <= length cs)%nat.
Proof.
  unfold sign. destruct cs as [|c cs]; [cbn; lia|].
  destruct (at_char c "-"); [cbn; lia|].
  destruct (plus && at_char c "+"); cbn; lia.
Qed.

Lemma fraction_length (cs : list ascii) fp r :
  fraction cs = Some (fp, r) -> (length r <= length cs)%nat.
Proof.
  unfold fraction. destruct cs as [|c cs]; [by intros [= <- <-]|].
  destruct (at_char c "."); [|by intros [= <- <-]].
  pose proof (digits_length cs) as Hd.
  destruct (digits cs) as [ds r']. destruct ds; [done|].
  intros [= <- <-]. cbn in *. lia.
Qed.

Lemma exponent_length (cs : list ascii) e r :
  exponent cs = Some (e, r) -> (length r <= length cs)%nat.
Proof.
  unfold exponent. destruct cs as [|c cs]; [by intros [= <- <-]|].
  destruct (at_char c "e" || at_char c "E"); [|by intros [= <- <-]].
  pose proof (sign_length true cs) as Hs.
  destruct (sign true cs) as [neg r1].
  pose proof (digits_length r1) as Hd.
  destruct (digits r1) as [ds r2]. destruct ds; [done|].
  intros [= <- <-]. cbn in *. lia.
Qed.

Lemma parse_number_length (cs : list ascii) x r :
  parse_number cs = Some (x, r) -> (length r < length cs)%nat.
Proof.
  unfold parse_number.
  pose proof (sign_length false cs) as Hs.
  destruct (sign false cs) as [neg cs1].
  pose proof (digits_length cs1) as Hd.
  destruct (digits cs1) as [ip cs2]. cbn [fst snd] in *.
  assert (Hgo : forall fp cs3 e cs4,
             ip <> [] -> fraction cs2 = Some (fp, cs3) ->
             exponent cs3 = Some (e, cs4) ->
             (length cs4 < length cs)%nat).
  { intros fp cs3 e cs4 Hip Hf%fraction_length He%exponent_length.
    destruct ip; [done|]. cbn in *. lia. }
  destruct ip as [|d ip]; [done|].
  assert (Hmain :
    match fraction cs2 with
    | Some (fp, cs3) =>
        match exponent cs3 with
        | Some (e, cs4) =>
            Some (decimal_to_number neg (digits_value ((d :: ip) ++ fp))
                    (e - Z.of_nat (length fp)), cs4)
        | None => None
        end
    | None => None
    end = Some (x, r) -> (length r < length cs)%nat).
  { destruct (fraction cs2) as [[fp cs3]|] eqn:Ef; [|done].
    destruct (exponent cs3) as [[e cs4]|] eqn:Ee; [|done].
    intros [= <- <-]. by eapply Hgo. }
  destruct d; [destruct ip; [exact Hmain|done] | exact Hmain | exact Hmain].
Qed.

Lemma strip_length (word : string) (cs r : list ascii) :
  strip word cs = Some r ->
  (length r + String.length word = length cs)%nat.
Proof.
  revert cs. induction word as [|w word IH]; intros cs; cbn.
  - intros [= <-]. lia.
  - destruct cs as [|c cs]; [done|].
    destruct (Ascii.eqb c w); [|done].
    intros Hr%IH. cbn. lia.
Qed.

Lemma keyword_length (cs : list ascii) v r :
  keyword cs = Some (v, r) -> (length r < length cs)%nat.
Proof.
  unfold keyword.
  destruct (strip "null" cs) eqn:E1.
  { intros [= <- <-]. apply strip_length in E1. cbn in E1. lia. }
  destruct (strip "true" cs) eqn:E2.
  { intros [= <- <-]. apply strip_length in E2. cbn in E2. lia. }
  destruct (strip "false" cs) eqn:E3; [|done].
  intros [= <- <-]. apply strip_length in E3. cbn in E3. lia.
Qed.

Lemma scalar_length (cs : list ascii) v r :
  scalar cs = Some (v, r) -> (length r < length cs)%nat.
Proof.
  unfold scalar. destruct cs as [|c cs]; [done|].
  destruct (Ascii.eqb c dquote).
  - destruct (string_body cs) as [[s r']|] eqn:E; [|done].
    intros [= <- <-]. apply string_body_length in E. cbn. lia.
  - destruct (keyword (c :: cs)) as [[v' r']|] eqn:E.
    { intros [= <- <-]. by apply keyword_length in E. }
    destruct (parse_number (c :: cs)) as [[x r']|] eqn:E'; [|done].
    intros [= <- <-]. by apply parse_number_length in E'.
Qed.

(** Whatever is read, something is consumed. *)
Lemma parse_length (n : nat) :
  (forall cs v r, parse_value n cs = Parsed v r ->
                  (length r < length cs)%nat)
  /\ (forall cs l r, parse_elements n cs = Parsed l r ->
                     (length r < length cs)%nat)
  /\ (forall cs l r, parse_members n cs = Parsed l r ->
                     (length r < length cs)%nat).
Proof.
  induction n as [|n (IHv & IHe & IHm)]; [by split_and!|].
  split_and!.
  - intros cs v r. cbn [parse_value].
    destruct cs as [|c cs]; [done|].
    destruct (at_char c "[").
    { pose proof (skip_ws_length cs) as Hw.
      destruct (skip_ws cs) as [|c' r']; [done|].
      destruct (at_char c' "]"); [intros [= <- <-]; cbn in *; lia|].
      destruct (parse_elements n (c' :: r')) as [l r''| |] eqn:E; try done.
      intros [= <- <-]. apply IHe in E. cbn in *. lia. }
    destruct (at_char c "{").
    { pose proof (skip_ws_length cs) as Hw.
      destruct (skip_ws cs) as [|c' r']; [done|].
      destruct (at_char c' "}"); [intros [= <- <-]; cbn in *; lia|].
      destruct (parse_members n (c' :: r')) as [l r''| |] eqn:E; try done.
      intros [= <- <-]. apply IHm in E. cbn in *. lia. }
    destruct (scalar (c :: cs)) as [[v' r']|] eqn:E; [|done].
    intros [= <- <-]. by apply scalar_length in E.
  - intros cs l r. cbn [parse_elements].
    destruct (parse_value n cs) as [v r1| |] eqn:E; try done.
    apply IHv in E. pose proof (skip_ws_length r1) as Hw.
    destruct (skip_ws r1) as [|c r2]; [done|].
    destruct (at_char c ",").
    { pose proof (skip_ws_length r2) as Hw2.
      destruct (parse_elements n (skip_ws r2)) as [l' r3| |] eqn:E';
        try done.
      intros [= <- <-]. apply IHe in E'. cbn in *. lia. }
    destruct (at_char c "]"); [|done].
    intros [= <- <-]. cbn in *. lia.
  - intros cs l r. cbn [parse_members].
    destruct cs as [|q cs]; [done|].
    destruct (Ascii.eqb q dquote); [|done].
    destruct (string_body cs) as [[k r1]|] eqn:Ek; [|done].
    apply string_body_length in Ek.
    pose proof (skip_ws_length r1) as Hw1.
    destruct (skip_ws r1) as [|c r2]; [done|].
    destruct (at_char c ":"); [|done].
    pose proof (skip_ws_length r2) as Hw2.
    destruct (parse_value n (skip_ws r2)) as [v r3| |] eqn:E; try done.
    apply IHv in E. pose proof (skip_ws_length r3) as Hw3.
    destruct (skip_ws r3) as [|c' r4]; [done|].
    destruct (at_char c' ",").
    { pose proof (skip_ws_length r4) as Hw4.
      destruct (parse_members n (skip_ws r4)) as [l' r5| |] eqn:E';
        try done.
      intros [= <- <-]. apply IHm in E'. cbn in *. lia. }
    destruct (at_char c' "}"); [|done].
    intros [= <- <-]. cbn in *. lia.
Qed.

(** Fuel above twice the length of the input is never used up. *)
Lemma parse_fuel (n : nat) :
  (forall cs, (2 * length cs < n)%nat -> parse_value n cs <> Starved)
  /\ (forall cs, (2 * length cs + 1 < n)%nat ->
                 parse_elements n cs <> Starved)
  /\ (forall cs, (2 * length cs + 1 < n)%nat ->
                 parse_members n cs <> Starved).
Proof.
  induction n as [|n (IHv & IHe & IHm)]; [split_and!; intros; lia|].
  destruct (parse_length n) as (Lv & Le & Lm).
  split_and!.
  - intros cs Hn. cbn [parse_value].
    destruct cs as [|c cs]; [done|].
    destruct (at_char c "[").
    { pose proof (skip_ws_length cs) as Hw.
      destruct (skip_ws cs) as [|c' r']; [done|].
      destruct (at_char c' "]"); [done|].
      specialize (IHe (c' :: r')).
      destruct (parse_elements n (c' :: r')); try done.
      exfalso. apply IHe; [cbn in *; lia|done]. }
    destruct (at_char c "{").
    { pose proof (skip_ws_length cs) as Hw.
      destruct (skip_ws cs) as [|c' r']; [done|].
      destruct (at_char c' "}"); [done|].
      specialize (IHm (c' :: r')).
      destruct (parse_members n (c' :: r')); try done.
      exfalso. apply IHm; [cbn in *; lia|done]. }
    by destruct (scalar (c :: cs)) as [[v' r']|].
  - intros cs Hn. cbn [parse_elements].
    specialize (IHv cs).
    destruct (parse_value n cs) as [v r1| |] eqn:E; try done.
    2:{ exfalso. apply IHv; [lia|done]. }
    apply Lv in E. pose proof (skip_ws_length r1) as Hw.
    destruct (skip_ws r1) as [|c r2]; [done|].
    destruct (at_char c ",").
    { pose proof (skip_ws_length r2) as Hw2.
      specialize (IHe (skip_ws r2)).
      destruct (parse_elements n (skip_ws r2)); try done.
      exfalso. apply IHe; [cbn in *; lia|done]. }
    by destruct (at_char c "]").
  - intros cs Hn. cbn [parse_members].
    destruct cs as [|q cs]; [done|].
    destruct (Ascii.eqb q dquote); [|done].
    destruct (string_body cs) as [[k r1]|] eqn:Ek; [|done].
    apply string_body_length in Ek.
    pose proof (skip_ws_length r1) as Hw1.
    destruct (skip_ws r1) as [|c r2]; [done|].
    destruct (at_char c ":"); [|done].
    pose proof (skip_ws_length r2) as Hw2.
    specialize (IHv (skip_ws r2)).
    destruct (parse_value n (skip_ws r2)) as [v r3| |] eqn:E; try done.
    2:{ exfalso. apply IHv; [cbn in *; lia|done]. }
    apply Lv in E. pose proof (skip_ws_length r3) as Hw3.
    destruct (skip_ws r3) as [|c' r4]; [done|].
    destruct (at_char c' ",").
    { pose proof (skip_ws_length r4) as Hw4.
      specialize (IHm (skip_ws r4)).
      destruct (parse_members n (skip_ws r4)); try done.
      exfalso. apply IHm; [cbn in *; lia|done]. }
    by destruct (at_char c' "}").
Qed.

(** [JSON.parse] always answers: with a value, or with a rejection that
    comes from the grammar and not from the fuel. *)
Lemma parse_text_total (s : string) :
  (exists v, parse_text s = Parsed v [] /\ parse s = Ok v)
  \/ (parse_text s = Reject /\ parse s = Throw SyntaxError).
Proof.
  unfold parse, parse_text.
  destruct (parse_fuel (2 * length (skip_ws (list_ascii_of_string s)) + 1))
    as (Hv & _ & _).
  specialize (Hv (skip_ws (list_ascii_of_string s)) ltac:(lia)).
  destruct (parse_value _ _) as [v r| |]; [|by right|done].
  destruct (skip_ws r); [left; by eexists|by right].
Qed.

End JSONFacts.

(** ** Renders, events and the persisted copy *)

Section LifecycleFacts.
Context `{Host}.

Lemma rerender_state (prev : Dashboard) (σ : Store) (d : Dashboard)
    (ls : Storage) :
  state (rerender prev σ d ls) = d.
Proof. done. Qed.

Lemma rerender_lookup (prev : Dashboard) (σ : Store) (d : Dashboard)
    (ls : Storage) (r : loc) :
  is_Some (σ !! r) -> store (rerender prev σ d ls) !! r = σ !! r.
Proof.
  intros [l Hl]. unfold rerender.
  pose proof (sortedCampaigns_spec σ d) as [Hnew Hσ'].
  destruct (sortedCampaigns σ d) as [r' σ']. cbn in *. subst σ'.
  apply lookup_insert_ne. congruence.
Qed.

Lemma rerender_items (prev : Dashboard) (σ : Store) (d : Dashboard)
    (ls : Storage) :
  is_Some (σ !! campaigns d) ->
  items (rerender prev σ d ls) = deref σ (campaigns d).
Proof.
  intros Hd. unfold items, deref.
  by rewrite rerender_state, rerender_lookup.
Qed.

Lemma rerender_well_formed (prev : Dashboard) (σ : Store) (d : Dashboard)
    (ls : Storage) :
  is_Some (σ !! campaigns d) -> well_formed (rerender prev σ d ls).
Proof.
  intros Hd. unfold well_formed.
  by rewrite rerender_state, rerender_lookup.
Qed.

Lemma rerender_storage (prev : Dashboard) (σ : Store) (d : Dashboard)
    (ls : Storage) :
  is_Some (σ !! campaigns d) ->
  localStorage (rerender prev σ d ls)
  = if Pos.eqb (campaigns d) (campaigns prev) then ls
    else setItem "campaigns" (JSON_stringify (deref σ (campaigns d))) ls.
Proof.
  intros Hd.
  pose proof (rerender_lookup prev σ d ls _ Hd) as Hlook.
  unfold rerender in *.
  destruct (sortedCampaigns σ d) as [r' σ']. cbn in *.
  destruct (Pos.eqb _ _); [done|].
  unfold save_effect, deref. by rewrite Hlook.
Qed.

(** After a handler has run, the [campaigns] cell refers to an array of
    the store; after [handleAddCampaign] and [handleDeleteCampaign] it
    is an array that did not exist before. *)
Lemma handle_allocated (e : Event) (w : World) :
  well_formed w ->
  is_Some ((handle e (store w) (state w)).1
             !! campaigns (handle e (store w) (state w)).2).
Proof.
  intros Hw. destruct e; cbn; try done.
  - rewrite lookup_insert_eq. by eexists.
  - rewrite lookup_insert_eq. by eexists.
  - unfold handleSort. by destruct (Key_eqb _ _).
Qed.

Lemma handle_fresh (e : Event) (w : World) :
  well_formed w -> is_mutation e = true ->
  campaigns (handle e (store w) (state w)).2 <> campaigns (state w).
Proof.
  intros Hw He. destruct e; try done; cbn; exact (alloc_ne [] _ _ Hw).
Qed.

Lemma dispatch_well_formed (e : Event) (w : World) :
  well_formed w -> well_formed (dispatch e w).
Proof.
  intros Hw. unfold dispatch.
  pose proof (handle_allocated e w Hw) as Ha.
  destruct (handle e (store w) (state w)) as [σ d].
  by apply rerender_well_formed.
Qed.

Lemma dispatch_items (e : Event) (w : World) :
  well_formed w ->
  items (dispatch e w)
  = deref (handle e (store w) (state w)).1
      (campaigns (handle e (store w) (state w)).2).
Proof.
  intros Hw. unfold dispatch.
  pose proof (handle_allocated e w Hw) as Ha.
  destruct (handle e (store w) (state w)) as [σ d].
  by apply rerender_items.
Qed.

(** An add appends, whatever the world. *)
Lemma dispatch_add_items (c : Campaign) (w : World) :
  items (dispatch (AddCampaign c) w) = (items w ++ [c])%list.
Proof.
  unfold dispatch. cbn [handle].
  pose proof (handleAddCampaign_items c (store w) (state w)) as Hitems.
  assert (Ha : is_Some ((handleAddCampaign c (store w) (state w)).1
                 !! campaigns (handleAddCampaign c (store w) (state w)).2)).
  { cbn. rewrite lookup_insert_eq. by eexists. }
  destruct (handleAddCampaign c (store w) (state w)) as [σ d].
  rewrite rerender_items; done.
Qed.

Lemma add_all_items (cs : list Campaign) (w : World) :
  items (add_all cs w) = (items w ++ cs)%list.
Proof.
  revert w. induction cs as [|c cs IH]; intros w.
  - cbn. by rewrite app_nil_r.
  - change (add_all (c :: cs) w)
      with (add_all cs (dispatch (AddCampaign c) w)).
    rewrite IH, dispatch_add_items. by rewrite <- app_assoc.
Qed.

(** C8.  Starting from the empty collection, a sequence of adds of
    campaigns with pairwise distinct ids leaves exactly these campaigns,
    in the order they were added: the ids of the collection are the ids
    added, none twice.  Each single add puts its campaign at the end of
    the collection, which grows by one. *)
Theorem add_all_distinct (cs : list Campaign) (w : World) :
  items w = [] ->
  NoDup (id_of <$> cs) ->
  items (add_all cs w) = cs
  /\ id_of <$> items (add_all cs w) = id_of <$> cs
  /\ NoDup (id_of <$> items (add_all cs w))
  /\ (forall c w',
         items (dispatch (AddCampaign c) w') = (items w' ++ [c])%list
         /\ length (items (dispatch (AddCampaign c) w'))
            = S (length (items w'))).
Proof.
  intros Hempty Hnd.
  assert (Hall : items (add_all cs w) = cs).
  { by rewrite add_all_items, Hempty. }
  rewrite Hall. split_and!; try done.
  intros c w'. rewrite dispatch_add_items. split; [done|].
  rewrite length_app. cbn. lia.
Qed.

(** A mutation rewrites the entry of the collection, and only it, with
    the serialisation of the whole new collection. *)
Lemma dispatch_mutation_storage (e : Event) (w : World) :
  well_formed w -> is_mutation e = true ->
  localStorage (dispatch e w)
  = <["campaigns" := JSON_stringify (items (dispatch e w))]>
      (localStorage w).
Proof.
  intros Hw He. rewrite dispatch_items by done. unfold dispatch.
  pose proof (handle_allocated e w Hw) as Ha.
  pose proof (handle_fresh e w Hw He) as Hf.
  destruct (handle e (store w) (state w)) as [σ d]. cbn [fst snd] in *.
  rewrite rerender_storage by done.
  apply Pos.eqb_neq in Hf. by rewrite Hf.
Qed.

(** The other events leave the collection and the storage alone. *)
Lemma dispatch_other (e : Event) (w : World) :
  well_formed w -> is_mutation e = false ->
  items (dispatch e w) = items w
  /\ localStorage (dispatch e w) = localStorage w.
Proof.
  intros Hw He. rewrite dispatch_items by done. unfold dispatch.
  pose proof (handle_allocated e w Hw) as Ha.
  assert (Hc : campaigns (handle e (store w) (state w)).2
               = campaigns (state w)
               /\ (handle e (store w) (state w)).1 = store w).
  { destruct e; try done. cbn. unfold handleSort.
    by destruct (Key_eqb _ _). }
  destruct (handle e (store w) (state w)) as [σ d]. cbn [fst snd] in *.
  destruct Hc as [Hc ->]. rewrite rerender_storage by done.
  by rewrite Hc, Pos.eqb_refl.
Qed.
End LifecycleFacts.

(** ** Mounting *)

Section MountFacts.
Context `{Host}.

(** The three ways mounting can end, by what the load effect did. *)
Lemma mount_cases (ls : Storage) :
  match load_effect ls with
  | Throw e => mount ls = Uncaught e
  | Ok None =>
      exists w, mount ls = Running w /\ well_formed w /\ items w = []
                /\ localStorage w
                   = <["campaigns" := JSON_stringify []]> ls
  | Ok (Some v) =>
      match as_records v with
      | Some l =>
          exists w, mount ls = Running w /\ well_formed w /\ items w = l
                    /\ localStorage w
                       = <["campaigns" := JSON_stringify l]> ls
      | None => mount ls = IllTyped v
      end
  end.
Proof.
  unfold mount, alloc.
  set (r0 := fresh (dom (∅ : Store))).
  set (σ0 := <[r0 := []]> (∅ : Store)).
  set (d0 := {| campaigns := r0; sortField := K_name;
                sortDirection := asc; isModalOpen := false |}).
  pose proof (sortedCampaigns_spec σ0 d0) as [Hnew Hσ1].
  destruct (sortedCampaigns σ0 d0) as [v0 σ1]. cbn [fst snd] in *.
  assert (Hr0 : σ1 !! r0 = Some []).
  { rewrite Hσ1, lookup_insert_ne.
    - apply lookup_insert_eq.
    - intros ->. unfold σ0 in Hnew. by rewrite lookup_insert_eq in Hnew. }
  destruct (load_effect ls) as [[v|]|e]; [| |done].
  - destruct (as_records v) as [l|]; [|done].
    eexists. split; [done|].
    assert (Hr : is_Some (<[fresh (dom σ1) := l]> σ1
                  !! campaigns (setCampaigns (fresh (dom σ1)) d0))).
    { cbn. rewrite lookup_insert_eq. by eexists. }
    split_and!.
    + by apply rerender_well_formed.
    + rewrite rerender_items by done. cbn. apply deref_insert_eq.
    + rewrite rerender_storage by done. cbn [campaigns setCampaigns d0].
      assert (Hne : fresh (dom σ1) <> r0).
      { apply (alloc_ne [] σ1 r0). by eexists. }
      apply Pos.eqb_neq in Hne. rewrite Hne.
      unfold save_effect, setItem. rewrite deref_insert_eq.
      apply insert_insert_eq.
  - eexists. split; [done|]. unfold well_formed, items. cbn.
    split_and!.
    + by eexists.
    + unfold deref. by rewrite Hr0.
    + unfold save_effect, setItem, deref. cbn. by rewrite Hr0.
Qed.

(** In every world the component can be in, the [campaigns] cell refers
    to an array of the store and the persisted entry is the
    serialisation of the whole collection. *)
Lemma reachable_synced (w : World) :
  reachable w ->
  well_formed w
  /\ localStorage w !! "campaigns" = Some (JSON_stringify (items w)).
Proof.
  induction 1 as [ls w Hm | e w Hw [Hwf Hsync]].
  - pose proof (mount_cases ls) as Hc.
    destruct (load_effect ls) as [[v|]|e]; [| |congruence].
    + destruct (as_records v) as [l|]; [|congruence].
      destruct Hc as (w' & Hw' & Hwf & Hi & Hls).
      assert (w' = w) as -> by congruence.
      split; [done|]. rewrite Hls, Hi. apply lookup_insert_eq.
    + destruct Hc as (w' & Hw' & Hwf & Hi & Hls).
      assert (w' = w) as -> by congruence.
      split; [done|]. rewrite Hls, Hi. apply lookup_insert_eq.
  - split; [by apply dispatch_well_formed|].
    destruct (is_mutation e) eqn:He.
    + rewrite dispatch_mutation_storage by done. apply lookup_insert_eq.
    + destruct (dispatch_other e w Hwf He) as [-> ->]. done.
Qed.

(** C2.  After every add and every remove, in any world the component
    can be in, the storage is the storage of before with the entry
    [campaigns] overwritten by the serialisation of the whole collection
    as it is now; the entry holds that serialisation, and no other
    entry is touched. *)
Theorem save_after_mutation (e : Event) (w : World) :
  reachable w -> is_mutation e = true ->
  localStorage (dispatch e w)
  = <["campaigns" := JSON_stringify (items (dispatch e w))]>
      (localStorage w)
  /\ localStorage (dispatch e w) !! "campaigns"
     = Some (JSON_stringify (items (dispatch e w)))
  /\ (forall k, k <> "campaigns" ->
                localStorage (dispatch e w) !! k = localStorage w !! k).
Proof.
  intros [Hwf _]%reachable_synced He.
  pose proof (dispatch_mutation_storage e w Hwf He) as Hls.
  split_and!; [done| |].
  - rewrite Hls. apply lookup_insert_eq.
  - intros k Hk. rewrite Hls. by apply lookup_insert_ne.
Qed.

(** C1, as amended.  When the entry is absent or is the empty string,
    mounting ends with the empty collection.  When it is present and is
    not JSON text, [JSON.parse] raises a [SyntaxError] that the load
    effect lets through, and mounting ends with it.  When it is JSON
    text, the value parsed is handed to [setCampaigns] as it is: an array
    of records becomes the collection; any other value is left in the
    cell, and the collection is not made empty. *)
Theorem mount_load (ls : Storage) :
  (ls !! "campaigns" = None \/ ls !! "campaigns" = Some EmptyString ->
     load_effect ls = Ok None
     /\ exists w, mount ls = Running w /\ items w = [])
  /\ (forall s e,
         ls !! "campaigns" = Some s -> s <> EmptyString ->
         JSON.parse s = Throw e ->
         load_effect ls = Throw e /\ mount ls = Uncaught e)
  /\ (forall s v,
         ls !! "campaigns" = Some s -> s <> EmptyString ->
         JSON.parse s = Ok v ->
         load_effect ls = Ok (Some v)
         /\ match as_records v with
            | Some l => exists w, mount ls = Running w /\ items w = l
            | None => mount ls = IllTyped v
            end).
Proof.
  pose proof (mount_cases ls) as Hc. unfold load_effect, getItem in *.
  split_and!.
  - intros [Hls | Hls]; rewrite Hls in *; cbn in *;
      destruct Hc as (w & ? & ? & ? & ?); eauto.
  - intros s e Hls Hs Hp. rewrite Hls in *.
    destruct s; [done|]. cbn in *. rewrite Hp in *. done.
  - intros s v Hls Hs Hp. rewrite Hls in *.
    destruct s; [done|]. cbn in *. rewrite Hp in *.
    split; [done|]. destruct (as_records v); [|done].
    destruct Hc as (w & ? & ? & ? & ?); eauto.
Qed.
End MountFacts.

(** Removing an id that no record carries changes nothing in the
    collection. *)
Lemma handleDeleteCampaign_missing (id : string) (σ : Store) (d : Dashboard) :
  Forall (fun c => id_of c <> VStr id) (deref σ (campaigns d)) ->
  deref (handleDeleteCampaign id σ d).1
    (campaigns (handleDeleteCampaign id σ d).2)
  = deref σ (campaigns d).
Proof.
  intros Hall. rewrite handleDeleteCampaign_items.
  apply forallb_filter_id, forallb_forall. intros c Hc%list_elem_of_In.
  rewrite Forall_forall in Hall.
  destruct (strict_ne_string (id_of c) id) eqn:E; [done|].
  apply strict_ne_string_false in E. by apply Hall in Hc.
Qed.

(** * More of the component *)

(** ** Numbers and strings in order *)

Ltac break_compare :=
  repeat match goal with
    | H : context [Z.compare ?a ?b] |- _ => destruct (Z.compare_spec a b)
    | |- context [Z.compare ?a ?b] => destruct (Z.compare_spec a b)
    | H : context [Pos.compare_cont Eq ?a ?b] |- _ =>
        change (Pos.compare_cont Eq a b) with (Pos.compare a b) in *;
        destruct (Pos.compare_spec a b)
    | |- context [Pos.compare_cont Eq ?a ?b] =>
        change (Pos.compare_cont Eq a b) with (Pos.compare a b) in *;
        destruct (Pos.compare_spec a b)
    end.

Ltac by_float_cases x y :=
  unfold SFltb, SFleb, SFeqb, SFcompare;
  destruct x as [[]|[]| |[] ? ?], y as [[]|[]| |[] ? ?]; try done;
  break_compare; simpl; subst; try done; try lia.

Lemma SFltb_asym (x y : spec_float) : SFltb x y = true -> SFltb y x = false.
Proof. by_float_cases x y. Qed.

Lemma SFltb_negative_trans (x y z : spec_float) :
  x <> S754_nan -> y <> S754_nan -> z <> S754_nan ->
  SFltb y x = false -> SFltb z y = false -> SFltb z x = false.
Proof.
  unfold SFltb, SFcompare. intros Hx Hy Hz.
  destruct x as [[]|[]| |[] mx ex], y as [[]|[]| |[] my ey],
    z as [[]|[]| |[] mz ez]; try done;
    break_compare; simpl; subst; try done; try lia.
Qed.

Lemma SFltb_le_trans (x y z : spec_float) :
  z <> S754_nan ->
  SFltb x y = true -> SFltb z y = false -> SFltb x z = true.
Proof.
  unfold SFltb, SFcompare. intros Hz.
  destruct x as [[]|[]| |[] mx ex], y as [[]|[]| |[] my ey],
    z as [[]|[]| |[] mz ez]; try done;
    break_compare; simpl; subst; try done; try lia.
Qed.

Lemma SFleb_ordered (x y : spec_float) :
  SFleb x y = true ->
  x <> S754_nan /\ y <> S754_nan /\ SFltb y x = false.
Proof. by_float_cases x y. Qed.

Lemma SFleb_nan (x y : spec_float) :
  x = S754_nan \/ y = S754_nan -> SFleb x y = false.
Proof. intros [-> | ->]; [done|]. by destruct x. Qed.

Lemma SFeqb_refl (x : spec_float) : x <> S754_nan -> SFeqb x x = true.
Proof.
  unfold SFeqb, SFcompare.
  destruct x as [[]|[]| |[] m e]; try done; intros _;
    rewrite Z.compare_refl, Pos.compare_cont_refl; done.
Qed.

Lemma is_nan_Prim2SF (x : float) :
  is_nan x = false <-> Prim2SF x <> S754_nan.
Proof.
  unfold is_nan. rewrite negb_false_iff, FloatAxioms.eqb_spec. split.
  - intros Heq Hn. rewrite Hn in Heq. done.
  - apply SFeqb_refl.
Qed.

Lemma float_ltb_asym (x y : float) :
  (x <? y)%float = true -> (y <? x)%float = false.
Proof. rewrite !ltb_spec. apply SFltb_asym. Qed.

Lemma float_ltb_negative_trans (x y z : float) :
  is_nan x = false -> is_nan y = false -> is_nan z = false ->
  (y <? x)%float = false -> (z <? y)%float = false ->
  (z <? x)%float = false.
Proof.
  rewrite !is_nan_Prim2SF, !ltb_spec. apply SFltb_negative_trans.
Qed.

Lemma float_ltb_le_trans (x y z : float) :
  is_nan z = false ->
  (x <? y)%float = true -> (z <? y)%float = false -> (x <? z)%float = true.
Proof. rewrite !is_nan_Prim2SF, !ltb_spec. apply SFltb_le_trans. Qed.

Lemma float_leb_ordered (x y : float) :
  (x <=? y)%float = true ->
  is_nan x = false /\ is_nan y = false /\ (y <? x)%float = false.
Proof.
  rewrite !is_nan_Prim2SF, leb_spec, ltb_spec. apply SFleb_ordered.
Qed.

Lemma float_leb_nan (x y : float) :
  is_nan x = true \/ is_nan y = true -> (x <=? y)%float = false.
Proof.
  intros Hnan. rewrite leb_spec. apply SFleb_nan.
  destruct Hnan as [Hn | Hn]; [left | right];
    unfold Prim2SF; by rewrite Hn.
Qed.

Lemma string_compare_lt_trans (s t u : string) :
  String.compare s t = Lt -> String.compare t u = Lt ->
  String.compare s u = Lt.
Proof.
  revert t u. induction s as [|a s IH]; intros [|b t] [|c u]; cbn; try done.
  unfold Ascii.compare.
  destruct (N.compare_spec (N_of_ascii a) (N_of_ascii b)) as [Hab|Hab|Hab];
    destruct (N.compare_spec (N_of_ascii b) (N_of_ascii c)) as [Hbc|Hbc|Hbc];
    destruct (N.compare_spec (N_of_ascii a) (N_of_ascii c)) as [Hac|Hac|Hac];
    try done; try lia; eauto.
Qed.

Lemma string_ltb_asym (s t : string) :
  String.ltb s t = true -> String.ltb t s = false.
Proof.
  unfold String.ltb. rewrite (String.compare_antisym t s).
  by destruct (String.compare s t).
Qed.

Lemma string_ltb_negative_trans (s t u : string) :
  String.ltb t s = false -> String.ltb u t = false ->
  String.ltb u s = false.
Proof.
  unfold String.ltb.
  destruct (String.compare t s) eqn:Hts; try done;
    destruct (String.compare u t) eqn:Hut; try done; intros _ _.
  - apply String.compare_eq_iff in Hts, Hut. subst.
    pose proof (String.compare_antisym s s).
    by destruct (String.compare s s).
  - apply String.compare_eq_iff in Hts. subst. by rewrite Hut.
  - apply String.compare_eq_iff in Hut. subst. by rewrite Hts.
  - rewrite String.compare_antisym in Hts, Hut.
    destruct (String.compare s t) eqn:Hst; try done.
    destruct (String.compare t u) eqn:Htu; try done.
    rewrite String.compare_antisym, (string_compare_lt_trans s t u); done.
Qed.

Section SortedOn.
Context {A : Type} (comparefn : A -> A -> Z) (P : A -> Prop).
Hypothesis total : forall x y,
  P x -> P y -> comparefn x y > 0 -> comparefn y x <= 0.
Hypothesis trans : forall a b c,
  P a -> P b -> P c ->
  comparefn a b <= 0 -> comparefn b c <= 0 -> comparefn a c <= 0.

Lemma insert_sorted_sorted_on (x : A) (l : list A) :
  P x -> Forall P l ->
  StronglySorted (fun a b => comparefn a b <= 0) l ->
  StronglySorted (fun a b => comparefn a b <= 0)
    (insert_sorted comparefn x l).
Proof.
  intros Hx HP. induction 1 as [|y l Hl IH Hy]; cbn.
  - repeat constructor.
  - apply Forall_cons in HP as [Py Pl].
    destruct (comparefn x y <=? 0) eqn:Hxy.
    + apply Z.leb_le in Hxy. constructor; [by constructor|].
      constructor; [done|].
      rewrite Forall_forall in Hy, Pl. apply Forall_forall.
      intros z Hz. apply (trans x y z); auto.
    + apply Z.leb_gt in Hxy. constructor; [auto|].
      rewrite insert_sorted_perm. constructor; [|done].
      apply total; auto. lia.
Qed.

Lemma Array_sort_sorted_on (l : list A) :
  Forall P l ->
  StronglySorted (fun a b => comparefn a b <= 0) (Array_sort comparefn l).
Proof.
  induction 1 as [|x l Hx Hl IH]; cbn.
  - constructor.
  - apply insert_sorted_sorted_on; [done| |done].
    fold (Array_sort comparefn l). by rewrite Array_sort_perm.
Qed.
End SortedOn.

Lemma StronglySorted_impl_on {A : Type} (P : A -> Prop) (R R' : A -> A -> Prop)
    (l : list A) :
  Forall P l ->
  (forall a b, P a -> P b -> R a b -> R' a b) ->
  StronglySorted R l -> StronglySorted R' l.
Proof.
  intros HP Himpl. induction 1 as [|x l Hl IH Hx]; constructor.
  - apply IH. by apply Forall_cons in HP as [_ ?].
  - apply Forall_cons in HP as [Px Pl].
    rewrite Forall_forall in Hx, Pl. apply Forall_forall.
    intros y Hy. apply Himpl; auto.
Qed.

(** ** V8's sort, for a consistent comparison function *)

Lemma StronglySorted_app_iff {A : Type} (R : A -> A -> Prop)
    (l1 l2 : list A) :
  StronglySorted R (l1 ++ l2) <->
  StronglySorted R l1 /\ StronglySorted R l2
  /\ (forall x y, x ∈ l1 -> y ∈ l2 -> R x y).
Proof.
  induction l1 as [|a l1 IH]; cbn.
  - split.
    + intros Hs. split_and!; [constructor | done |].
      intros x y Hx. by apply elem_of_nil in Hx.
    + by intros (_ & Hs & _).
  - split.
    + intros Hs. apply StronglySorted_inv in Hs as [Hs Ha].
      apply IH in Hs as (H1 & H2 & H3).
      apply Forall_app in Ha as [Ha1 Ha2].
      split_and!; [by constructor | done |].
      intros x y [-> | Hx]%elem_of_cons Hy; [|by apply H3].
      rewrite Forall_forall in Ha2. by apply Ha2.
    + intros (H1 & H2 & H3). apply StronglySorted_inv in H1 as [H1 Ha].
      constructor.
      * apply IH. split_and!; [done..|].
        intros x y Hx Hy. apply H3; [by right | done].
      * apply Forall_app. split; [done|]. apply Forall_forall.
        intros y Hy. apply H3; [by left | done].
Qed.

Lemma StronglySorted_rev {A : Type} (R : A -> A -> Prop) (l : list A) :
  StronglySorted R l -> StronglySorted (fun a b => R b a) (rev l).
Proof.
  induction 1 as [|x l Hl IH Hx]; cbn; [constructor|].
  apply StronglySorted_app_iff. split_and!; [done | repeat constructor |].
  intros a b Ha Hb. apply list_elem_of_singleton in Hb as ->.
  rewrite Forall_forall in Hx. apply Hx.
  by apply list_elem_of_In, in_rev, list_elem_of_In.
Qed.

Section V8Facts.
Context {A : Type} (comparefn : A -> A -> Z) (P : A -> Prop).
Hypothesis swap : forall x y, comparefn y x = - comparefn x y.
Hypothesis trans : forall a b c,
  P a -> P b -> P c ->
  comparefn a b <= 0 -> comparefn b c <= 0 -> comparefn a c <= 0.

#[local] Abbreviation le := (fun a b => comparefn a b <= 0).
#[local] Abbreviation tied c := (fun x => comparefn c x =? 0).

Lemma comparefn_refl (x : A) : comparefn x x = 0.
Proof. pose proof (swap x x). lia. Qed.

Lemma comparefn_lt_le (a b c : A) :
  P a -> P b -> P c ->
  comparefn a b < 0 -> comparefn b c <= 0 -> comparefn a c < 0.
Proof.
  intros Ha Hb Hc Hab Hbc.
  destruct (Z_lt_le_dec (comparefn a c) 0) as [|Hac]; [done|].
  pose proof (swap a c). pose proof (swap a b).
  pose proof (trans b c a Hb Hc Ha Hbc). lia.
Qed.

Lemma comparefn_le_lt (a b c : A) :
  P a -> P b -> P c ->
  comparefn a b <= 0 -> comparefn b c < 0 -> comparefn a c < 0.
Proof.
  intros Ha Hb Hc Hab Hbc.
  destruct (Z_lt_le_dec (comparefn a c) 0) as [|Hac]; [done|].
  pose proof (swap a c). pose proof (swap b c).
  pose proof (trans c a b Hc Ha Hb). lia.
Qed.

(** The elements that do not tie with [x] do not tie with an element tied
    with [x]. *)
Lemma filter_tied_none (c x : A) (l : list A) :
  P c -> P x -> Forall P l ->
  comparefn c x = 0 ->
  Forall (fun y => comparefn x y <> 0) l ->
  List.filter (tied c) l = [].
Proof.
  intros Hc Hx HP Hcx. induction 1 as [|y l Hy Hl IH]; [done|].
  apply Forall_cons in HP as [Py Pl]. cbn.
  destruct (Z.eqb_spec (comparefn c y) 0) as [Hcy|]; [|auto].
  pose proof (swap c x). pose proof (swap c y). pose proof (swap x y).
  pose proof (trans x c y Hx Hc Py). pose proof (trans y c x Py Hc Hx).
  lia.
Qed.

(** Two sorted arrangements that keep every group of tied elements in the
    same order are the same list. *)
Lemma stable_sorted_unique (l1 l2 : list A) :
  Forall P l1 -> Forall P l2 ->
  StronglySorted le l1 -> StronglySorted le l2 ->
  (forall c, P c -> List.filter (tied c) l1 = List.filter (tied c) l2) ->
  l1 = l2.
Proof.
  intros P1 P2 H1. revert l2 P2.
  induction H1 as [|x l1 Hl1 IH Hx]; intros l2 P2 H2 Hf.
  - destruct l2 as [|y l2]; [done|].
    apply Forall_cons in P2 as [Py _].
    specialize (Hf y Py). cbn in Hf. by rewrite comparefn_refl in Hf.
  - apply Forall_cons in P1 as [Px P1].
    destruct l2 as [|y l2].
    { specialize (Hf x Px). cbn in Hf. by rewrite comparefn_refl in Hf. }
    apply Forall_cons in P2 as [Py P2].
    apply StronglySorted_inv in H2 as [H2 Hy].
    assert (x = y) as <-.
    { pose proof (Hf x Px) as Fx. pose proof (Hf y Py) as Fy. cbn in Fx, Fy.
      rewrite comparefn_refl in Fx, Fy. cbn in Fx, Fy.
      destruct (Z.eqb_spec (comparefn x y) 0) as [|Hxy]; [congruence|].
      destruct (Z.eqb_spec (comparefn y x) 0) as [Hyx|Hyx].
      { rewrite swap in Hyx. lia. }
      assert (Hin : x ∈ l2).
      { apply list_elem_of_In.
        eapply (proj1 (filter_In (tied x) x l2)).
        rewrite <- Fx. by left. }
      assert (Hin' : y ∈ l1).
      { apply list_elem_of_In.
        eapply (proj1 (filter_In (tied y) y l1)).
        rewrite Fy. by left. }
      rewrite Forall_forall in Hx, Hy.
      specialize (Hx _ Hin'). specialize (Hy _ Hin).
      rewrite swap in Hy. cbn in Hx, Hy. lia. }
    f_equal. apply IH; [done..|].
    intros c Hc. specialize (Hf c Hc). cbn in Hf.
    destruct (comparefn c x =? 0); congruence.
Qed.

(** The binary search stops at an index with the elements that [pivot] is
    not less than before it and the elements that [pivot] is less than
    from it on. *)
Lemma search_spec (pivot : A) (s : list A) :
  P pivot -> Forall P s -> StronglySorted le s ->
  forall fuel left right,
    (left <= right <= length s)%nat -> (right - left <= fuel)%nat ->
    Forall (fun x => 0 <= comparefn pivot x) (take left s) ->
    Forall (fun x => comparefn pivot x < 0) (drop right s) ->
    let k := V8.search comparefn fuel pivot s left right in
    Forall (fun x => 0 <= comparefn pivot x) (take k s)
    /\ Forall (fun x => comparefn pivot x < 0) (drop k s).
Proof.
  intros Hp HP Hs.
  induction fuel as [|fuel IH]; intros left right Hlr Hfuel Hleft Hright;
    cbn [V8.search].
  { replace left with right at 2 by lia. done. }
  destruct (Nat.ltb_spec left right) as [Hlt|Hge].
  2: { replace left with right at 2 by lia. done. }
  set (mid := (left + Nat.div2 (right - left))%nat).
  assert (Hmid : (left <= mid < right)%nat).
  { pose proof (Nat.lt_div2 (right - left) ltac:(lia)) as Hd. unfold mid.
    revert Hd. generalize (Nat.div2 (right - left)). intros h Hd. lia. }
  destruct (lookup_lt_is_Some_2 s mid ltac:(lia)) as [x Hx].
  rewrite Hx.
  pose proof (take_drop_middle s mid x Hx) as Hmiddle.
  assert (Px : P x).
  { rewrite Forall_forall in HP. apply HP. by eapply list_elem_of_lookup_2. }
  rewrite <- Hmiddle in Hs.
  apply StronglySorted_app_iff in Hs as (_ & Hs2 & Hs3).
  apply StronglySorted_inv in Hs2 as [_ Habove].
  destruct (Z.ltb_spec (comparefn pivot x) 0) as [Hneg|Hpos].
  - apply IH; [lia | lia | done |].
    rewrite (drop_S s x mid Hx). constructor; [done|].
    pose proof (Forall_drop P (S mid) s HP) as HPd.
    rewrite Forall_forall in Habove, HPd. apply Forall_forall.
    intros y Hy. apply (comparefn_lt_le pivot x y); auto.
  - apply IH; [lia | lia | | ].
    + rewrite (take_S_r s mid x Hx). apply Forall_app. split; [|by constructor].
      apply Forall_forall. intros y Hy.
      assert (Py : P y).
      { pose proof (Forall_take P mid s HP) as HPt.
        rewrite Forall_forall in HPt. by apply HPt. }
      pose proof (Hs3 y x Hy ltac:(left)) as Hyx. cbn in Hyx.
      pose proof (swap pivot x). pose proof (swap pivot y).
      pose proof (trans y x pivot Py Px Hp Hyx). lia.
    + exact Hright.
Qed.

(** One element put into the sorted part: the part stays sorted, and the
    element comes after the elements it ties with. *)
Lemma insert_binary_spec (pivot : A) (s : list A) :
  P pivot -> Forall P s -> StronglySorted le s ->
  let r := V8.insert_binary comparefn s pivot in
  Forall P r /\ StronglySorted le r
  /\ (forall c, P c ->
         List.filter (tied c) r = List.filter (tied c) (s ++ [pivot])).
Proof.
  intros Hp HP Hs. unfold V8.insert_binary.
  set (k := V8.search comparefn (length s) pivot s 0 (length s)).
  destruct (search_spec pivot s Hp HP Hs (length s) 0 (length s))
    as [Hbelow Habove]; [lia | lia | by rewrite take_0 | by rewrite drop_all |].
  fold k in Hbelow, Habove.
  pose proof (Forall_take P k s HP) as HPt.
  pose proof (Forall_drop P k s HP) as HPd.
  rewrite <- (take_drop k s) in Hs.
  apply StronglySorted_app_iff in Hs as (Hs1 & Hs2 & Hs3).
  split_and!.
  - apply Forall_app. split; [done|]. by constructor.
  - apply StronglySorted_app_iff. split_and!; [done| |].
    + constructor; [done|]. eapply Forall_impl; [exact Habove|].
      cbn. intros. lia.
    + intros x y Hx [-> | Hy]%elem_of_cons; [|by apply Hs3].
      rewrite Forall_forall in Hbelow. specialize (Hbelow x Hx).
      rewrite swap. cbn in Hbelow. lia.
  - intros c Hc. rewrite <- (take_drop k s) at 3.
    rewrite !List.filter_app. cbn [List.filter].
    destruct (Z.eqb_spec (comparefn c pivot) 0) as [Hcp|Hcp].
    + rewrite (filter_tied_none c pivot (drop k s) Hc Hp HPd Hcp).
      * by rewrite app_nil_r.
      * eapply Forall_impl; [exact Habove|]. cbn. intros. lia.
    + by rewrite app_nil_r.
Qed.

(** [BinaryInsertionSort]: the elements of [rest], put one by one into a
    sorted part. *)
Lemma fold_insert_binary_spec (rest s : list A) :
  Forall P rest -> Forall P s -> StronglySorted le s ->
  let r := fold_left (V8.insert_binary comparefn) rest s in
  Forall P r /\ StronglySorted le r
  /\ (forall c, P c ->
         List.filter (tied c) r = List.filter (tied c) (s ++ rest)).
Proof.
  intros Hrest. revert s.
  induction Hrest as [|x rest Hx Hrest IH]; intros s HP Hs; cbn.
  - split_and!; [done..|]. intros c _. by rewrite app_nil_r.
  - destruct (insert_binary_spec x s Hx HP Hs) as (HP' & Hs' & Hf).
    destruct (IH _ HP' Hs') as (HPr & Hr & Hfr).
    split_and!; [done..|]. intros c Hc.
    change (s ++ x :: rest)%list with (s ++ [x] ++ rest)%list.
    rewrite (Hfr c Hc), !List.filter_app, (Hf c Hc), List.filter_app.
    by rewrite <- app_assoc.
Qed.

Lemma run_tail_length (isDescending : bool) (previous : A) (l : list A) :
  (V8.run_tail comparefn isDescending previous l <= length l)%nat.
Proof.
  revert previous. induction l as [|x l IH]; intros previous; cbn; [lia|].
  destruct (if isDescending then _ else _); [lia|].
  specialize (IH x). lia.
Qed.

(** An ascending run is sorted. *)
Lemma ascending_run_sorted (previous : A) (l : list A) :
  P previous -> Forall P l ->
  StronglySorted le
    (previous :: take (V8.run_tail comparefn false previous l) l).
Proof.
  intros Hp HP. revert previous Hp.
  induction HP as [|x l Hx Hl IH]; intros previous Hp; cbn.
  - repeat constructor.
  - destruct (Z.ltb_spec (comparefn x previous) 0) as [Hlt|Hge]; cbn.
    + repeat constructor.
    + specialize (IH x Hx). constructor; [done|].
      apply StronglySorted_inv in IH as [_ Hab].
      assert (Hpx : comparefn previous x <= 0) by (rewrite swap; lia).
      constructor; [done|].
      pose proof (Forall_take P (V8.run_tail comparefn false x l) l Hl)
        as HPt.
      rewrite Forall_forall in Hab, HPt. apply Forall_forall. intros y Hy.
      apply (trans previous x y); auto.
Qed.

(** A descending run descends strictly. *)
Lemma descending_run_sorted (previous : A) (l : list A) :
  P previous -> Forall P l ->
  StronglySorted (fun a b => comparefn b a < 0)
    (previous :: take (V8.run_tail comparefn true previous l) l).
Proof.
  intros Hp HP. revert previous Hp.
  induction HP as [|x l Hx Hl IH]; intros previous Hp; cbn.
  - repeat constructor.
  - destruct (Z.leb_spec 0 (comparefn x previous)) as [Hge|Hlt]; cbn.
    + repeat constructor.
    + specialize (IH x Hx). constructor; [done|].
      apply StronglySorted_inv in IH as [_ Hab].
      constructor; [done|].
      pose proof (Forall_take P (V8.run_tail comparefn true x l) l Hl)
        as HPt.
      rewrite Forall_forall in Hab, HPt. apply Forall_forall. intros y Hy.
      apply (comparefn_lt_le y x previous); auto. lia.
Qed.

(** Reversing a strictly descending run moves no element past one it
    ties with. *)
Lemma filter_tied_rev (c : A) (l : list A) :
  P c -> Forall P l ->
  StronglySorted (fun a b => comparefn b a < 0) l ->
  List.filter (tied c) (rev l) = List.filter (tied c) l.
Proof.
  intros Hc HP. induction 1 as [|x l Hl IH Hx]; [done|].
  apply Forall_cons in HP as [Px Pl]. cbn.
  rewrite List.filter_app, IH by done. cbn.
  destruct (Z.eqb_spec (comparefn c x) 0) as [Hcx|Hcx].
  - rewrite (filter_tied_none c x l Hc Px Pl Hcx); [done|].
    eapply Forall_impl; [exact Hx|]. cbn. intros y Hy.
    rewrite swap. lia.
  - by rewrite app_nil_r.
Qed.

(** [CountAndMakeRun]: the run is sorted, and making it has moved no
    element past one it ties with. *)
Lemma CountAndMakeRun_spec (l : list A) :
  Forall P l ->
  let n := (V8.CountAndMakeRun comparefn l).1 in
  let w := (V8.CountAndMakeRun comparefn l).2 in
  Forall P w /\ StronglySorted le (take n w)
  /\ (forall c, P c -> List.filter (tied c) w = List.filter (tied c) l).
Proof.
  intros HP.
  destruct l as [|elementHigh [|elementLow l]].
  - cbn. split_and!; [done | constructor | done].
  - cbn. split_and!; [done | repeat constructor | done].
  - cbn [V8.CountAndMakeRun].
    apply Forall_cons in HP as [PH HP].
    destruct (Z.ltb_spec (comparefn elementLow elementHigh) 0)
      as [Hlt|Hge]; cbn [fst snd].
    + set (n := V8.run_tail comparefn true elementLow l).
      pose proof (descending_run_sorted elementHigh (elementLow :: l) PH HP)
        as Hrun.
      cbn [V8.run_tail] in Hrun.
      destruct (Z.leb_spec 0 (comparefn elementLow elementHigh)); [lia|].
      fold n in Hrun.
      change (elementHigh :: take (S n) (elementLow :: l))
        with (take (2 + n) (elementHigh :: elementLow :: l)) in Hrun.
      set (whole := elementHigh :: elementLow :: l) in *.
      assert (HPw : Forall P whole) by by constructor.
      assert (Hlen : length (rev (take (2 + n) whole)) = (2 + n)%nat).
      { rewrite length_rev, length_take. subst whole. cbn [length].
        pose proof (run_tail_length true elementLow l) as Hn. fold n in Hn.
        lia. }
      split_and!.
      * apply Forall_app. split.
        -- apply Forall_rev. by apply Forall_take.
        -- by apply Forall_drop.
      * rewrite (take_app_length' _ _ _ (eq_sym Hlen)).
        apply (StronglySorted_impl_on P (fun a b => comparefn a b < 0)).
        -- apply Forall_rev. by apply Forall_take.
        -- intros. lia.
        -- by apply (StronglySorted_rev (fun a b => comparefn b a < 0)).
      * intros c Hc. rewrite List.filter_app, filter_tied_rev;
          [|done|by apply Forall_take|done].
        by rewrite <- List.filter_app, take_drop.
    + pose proof (ascending_run_sorted elementHigh (elementLow :: l) PH HP)
        as Hrun.
      cbn [V8.run_tail] in Hrun.
      destruct (Z.ltb_spec (comparefn elementLow elementHigh) 0); [lia|].
      split_and!; [by constructor | exact Hrun | done].
Qed.

(** For a comparison function that orders the elements consistently,
    what V8 returns is sorted and keeps tied elements in their order. *)
Lemma V8_sort_short_spec (l : list A) :
  Forall P l ->
  Forall P (V8.sort_short comparefn l)
  /\ StronglySorted le (V8.sort_short comparefn l)
  /\ (forall c, P c ->
         List.filter (tied c) (V8.sort_short comparefn l)
         = List.filter (tied c) l).
Proof.
  intros HP. unfold V8.sort_short.
  destruct (CountAndMakeRun_spec l HP) as (HPw & Hs & Hf).
  destruct (V8.CountAndMakeRun comparefn l) as [n w]. cbn [fst snd] in *.
  destruct (fold_insert_binary_spec (drop n w) (take n w))
    as (HPr & Hr & Hfr); [by apply Forall_drop | by apply Forall_take | done|].
  split_and!; [done..|].
  intros c Hc. by rewrite (Hfr c Hc), take_drop, (Hf c Hc).
Qed.

(** For such a comparison function V8 returns the array that
    [Array_sort] computes. *)
Lemma V8_sort_short_Array_sort (l : list A) :
  Forall P l -> V8.sort_short comparefn l = Array_sort comparefn l.
Proof.
  intros HP. destruct (V8_sort_short_spec l HP) as (HPv & Hv & Hfv).
  apply stable_sorted_unique; [done| |done| |].
  - by rewrite Array_sort_perm.
  - apply (Array_sort_sorted_on comparefn P); [|done..].
    intros x y _ _. rewrite (swap x y). lia.
  - intros c Hc. rewrite (Hfv c Hc). symmetry.
    apply Array_sort_stable.
    intros x y Hx Hy Hcx%Z.eqb_eq Hcy%Z.eqb_eq.
    rewrite Forall_forall in HP.
    apply (trans x c y); auto; [rewrite swap|]; lia.
Qed.

Lemma V8_sort_Array_sort (l : list A) :
  Forall P l -> (length l < 64)%nat ->
  V8.sort comparefn l = Some (Array_sort comparefn l).
Proof.
  intros HP Hlen. unfold V8.sort.
  destruct (Nat.ltb_spec (length l) 64); [|lia].
  by rewrite V8_sort_short_Array_sort.
Qed.
End V8Facts.

(** ** The comparison function as an order *)

Section ComparatorFacts.
Context `{Host}.

Lemma js_lt_numbers (x y : float) :
  js_lt (VNum x) (VNum y) = (x <? y)%float.
Proof. done. Qed.

Lemma js_lt_strings (s t : string) :
  js_lt (VStr s) (VStr t) = String.ltb s t.
Proof. done. Qed.

Lemma js_lt_asym (x y : value) : js_lt x y = true -> js_lt y x = false.
Proof.
  unfold js_lt.
  destruct (ToPrimitive x), (ToPrimitive y);
    auto using float_ltb_asym, string_ltb_asym.
Qed.

Lemma compare_campaigns_le0 (f : Key) (dir : Direction) (a b : Campaign) :
  compare_campaigns f dir a b <= 0 <-> in_order f dir a b.
Proof.
  unfold compare_campaigns, in_order.
  pose proof (js_lt_asym (comparison_value f a) (comparison_value f b)).
  destruct dir, (js_lt (comparison_value f a) (comparison_value f b)),
    (js_lt (comparison_value f b) (comparison_value f a));
    split; intros; try done; try lia; auto.
Qed.

Lemma compare_campaigns_swap (f : Key) (dir : Direction) (a b : Campaign) :
  compare_campaigns f dir b a = - compare_campaigns f dir a b.
Proof.
  unfold compare_campaigns.
  pose proof (js_lt_asym (comparison_value f a) (comparison_value f b)) as Hab.
  destruct dir, (js_lt (comparison_value f a) (comparison_value f b)),
    (js_lt (comparison_value f b) (comparison_value f a));
    try done; by specialize (Hab eq_refl).
Qed.

Lemma in_order_trans_numbers (f : Key) (dir : Direction) (a b c : Campaign) :
  is_number (comparison_value f a) -> is_number (comparison_value f b) ->
  is_number (comparison_value f c) ->
  in_order f dir a b -> in_order f dir b c -> in_order f dir a c.
Proof.
  intros (x & Ha & Hx) (y & Hb & Hy) (z & Hc & Hz).
  unfold in_order. rewrite Ha, Hb, Hc.
  destruct dir; rewrite !js_lt_numbers; intros Hab Hbc.
  - by apply (float_ltb_negative_trans x y z).
  - by apply (float_ltb_negative_trans z y x).
Qed.

Lemma in_order_trans_strings (f : Key) (dir : Direction) (a b c : Campaign) :
  is_string (comparison_value f a) -> is_string (comparison_value f b) ->
  is_string (comparison_value f c) ->
  in_order f dir a b -> in_order f dir b c -> in_order f dir a c.
Proof.
  intros (x & Ha) (y & Hb) (z & Hc).
  unfold in_order. rewrite Ha, Hb, Hc.
  destruct dir; rewrite !js_lt_strings; intros Hab Hbc.
  - by apply (string_ltb_negative_trans x y z).
  - by apply (string_ltb_negative_trans z y x).
Qed.

(** Sorting records of one kind puts them in order. *)
Lemma Array_sort_in_order (f : Key) (dir : Direction) (l : list Campaign) :
  one_kind f l ->
  StronglySorted (in_order f dir) (Array_sort (compare_campaigns f dir) l).
Proof.
  intros [Hk | Hk].
  - eapply (StronglySorted_impl_on (fun _ => True)).
    + apply Forall_forall. done.
    + intros a b _ _. apply compare_campaigns_le0.
    + apply (Array_sort_sorted_on _
               (fun c => is_number (comparison_value f c))); [| |done].
      * intros x y _ _. rewrite (compare_campaigns_swap f dir x y). lia.
      * intros a b c Ha Hb Hc. rewrite !compare_campaigns_le0.
        by apply in_order_trans_numbers.
  - eapply (StronglySorted_impl_on (fun _ => True)).
    + apply Forall_forall. done.
    + intros a b _ _. apply compare_campaigns_le0.
    + apply (Array_sort_sorted_on _
               (fun c => is_string (comparison_value f c))); [| |done].
      * intros x y _ _. rewrite (compare_campaigns_swap f dir x y). lia.
      * intros a b c Ha Hb Hc. rewrite !compare_campaigns_le0.
        by apply in_order_trans_strings.
Qed.

(** On records of one kind, fewer than 64, V8 returns the array that
    [Array_sort] computes. *)
Lemma V8_sort_one_kind (f : Key) (dir : Direction) (l : list Campaign) :
  one_kind f l -> (length l < 64)%nat ->
  V8.sort (compare_campaigns f dir) l
  = Some (Array_sort (compare_campaigns f dir) l).
Proof.
  intros [Hk | Hk] Hlen.
  - apply (V8_sort_Array_sort _
             (fun c => is_number (comparison_value f c))); [| |done..].
    + intros x y. apply compare_campaigns_swap.
    + intros a b c Ha Hb Hc. rewrite !compare_campaigns_le0.
      by apply in_order_trans_numbers.
  - apply (V8_sort_Array_sort _
             (fun c => is_string (comparison_value f c))); [| |done..].
    + intros x y. apply compare_campaigns_swap.
    + intros a b c Ha Hb Hc. rewrite !compare_campaigns_le0.
      by apply in_order_trans_strings.
Qed.

(** X6.  The comparison function is antisymmetric, for all records and in
    both directions: swapping its arguments negates its result, and so
    does switching the direction. *)
Theorem compare_campaigns_antisym (f : Key) (dir : Direction)
    (a b : Campaign) :
  compare_campaigns f dir b a = - compare_campaigns f dir a b
  /\ compare_campaigns f (opposite dir) a b = - compare_campaigns f dir a b.
Proof.
  split; [apply compare_campaigns_swap|].
  unfold compare_campaigns.
  destruct dir, (js_lt (comparison_value f a) (comparison_value f b)),
    (js_lt (comparison_value f b) (comparison_value f a)); done.
Qed.
End ComparatorFacts.

(** ** The view of every reachable world *)

Section ViewInvariant.
Context `{Host}.

Lemma rerender_view (prev : Dashboard) (σ : Store) (d : Dashboard)
    (ls : Storage) :
  view (rerender prev σ d ls)
  = Array_sort (compare_campaigns (sortField d) (sortDirection d))
      (deref σ (campaigns d)).
Proof.
  unfold view, rerender.
  pose proof (sortedCampaigns_spec σ d) as [_ Hσ'].
  destruct (sortedCampaigns σ d) as [r σ']. cbn in *. subst σ'.
  apply deref_insert_eq.
Qed.

(** What mounting leaves when the component runs: the initial sort
    settings, the closed modal, and the view of the collection loaded. *)
Lemma mount_running (ls : Storage) (w : World) :
  mount ls = Running w ->
  sortField (state w) = K_name /\ sortDirection (state w) = asc
  /\ isModalOpen (state w) = false
  /\ view w = Array_sort (compare_campaigns K_name asc) (items w).
Proof.
  unfold mount, alloc.
  set (r0 := fresh (dom (∅ : Store))).
  set (σ0 := <[r0 := []]> (∅ : Store)).
  set (d0 := {| campaigns := r0; sortField := K_name;
                sortDirection := asc; isModalOpen := false |}).
  pose proof (sortedCampaigns_spec σ0 d0) as [Hnew Hσ1].
  destruct (sortedCampaigns σ0 d0) as [v0 σ1]. cbn [fst snd] in *.
  destruct (load_effect ls) as [[v|]|e]; [| |done].
  - destruct (as_records v) as [l|]; [|done].
    intros [= <-]. rewrite rerender_state, rerender_view.
    rewrite rerender_items; [done|].
    cbn. rewrite lookup_insert_eq. by eexists.
  - intros [= <-]. unfold view, items. cbn. split_and!; try done.
    assert (Hne : v0 <> r0).
    { intros ->. unfold σ0 in Hnew. by rewrite lookup_insert_eq in Hnew. }
    rewrite Hσ1, deref_insert_eq, deref_insert_ne by done. done.
Qed.

Lemma reachable_view (w : World) :
  reachable w ->
  view w
  = Array_sort (compare_campaigns (sortField (state w))
                  (sortDirection (state w))) (items w).
Proof.
  destruct 1 as [ls w Hm | e w Hw].
  - apply mount_running in Hm as (-> & -> & _ & ->). done.
  - apply reachable_synced in Hw as [Hwf _].
    rewrite dispatch_items by done. unfold dispatch.
    pose proof (handle_allocated e w Hwf) as Ha.
    destruct (handle e (store w) (state w)) as [σ d]. cbn [fst snd] in *.
    by rewrite rerender_view, rerender_state.
Qed.

(** X4.  In every world the component can be in, the array handed to the
    table is a rearrangement of the collection as it is now: the same
    records, each as often. *)
Theorem view_rearranges_items (w : World) :
  reachable w ->
  view w ≡ₚ items w /\ length (view w) = length (items w).
Proof.
  intros Hw. rewrite (reachable_view w Hw). split.
  - apply Array_sort_perm.
  - apply Array_sort_length.
Qed.

(** X5.  When the comparison values of the collection for the sort field
    are all numbers other than NaN, or all strings, the view is in order:
    ascending, no record is followed by one with a smaller value;
    descending, none is followed by one with a greater value. *)
Theorem view_in_order (w : World) :
  reachable w ->
  one_kind (sortField (state w)) (items w) ->
  StronglySorted (in_order (sortField (state w)) (sortDirection (state w)))
    (view w).
Proof.
  intros Hw Hk. rewrite (reachable_view w Hw). by apply Array_sort_in_order.
Qed.

(** X15.  The table shows the message for an empty list exactly when the
    collection is empty. *)
Theorem empty_message_iff_empty (w : World) :
  reachable w ->
  Table.shows_empty_message (view w) = true <-> items w = [].
Proof.
  intros Hw. unfold Table.shows_empty_message.
  rewrite (reachable_view w Hw), Array_sort_length, Nat.eqb_eq.
  apply length_zero_iff_nil.
Qed.
End ViewInvariant.

(** ** Events on the collection *)

Section EventFacts.
Context `{Host}.

(** A remove filters, whatever the world. *)
Lemma dispatch_delete_items (id : string) (w : World) :
  items (dispatch (DeleteCampaign id) w)
  = List.filter (fun c => strict_ne_string (id_of c) id) (items w).
Proof.
  unfold dispatch. cbn [handle].
  pose proof (handleDeleteCampaign_items id (store w) (state w)) as Hitems.
  assert (Ha : is_Some ((handleDeleteCampaign id (store w) (state w)).1
                 !! campaigns (handleDeleteCampaign id (store w) (state w)).2)).
  { cbn. rewrite lookup_insert_eq. by eexists. }
  destruct (handleDeleteCampaign id (store w) (state w)) as [σ d].
  rewrite rerender_items; done.
Qed.

Lemma filter_other_ids (id : string) (l : list Campaign) :
  Forall (fun c => id_of c <> VStr id) l ->
  List.filter (fun c => strict_ne_string (id_of c) id) l = l.
Proof.
  intros Hall. apply forallb_filter_id, forallb_forall.
  intros c Hc%list_elem_of_In. rewrite Forall_forall in Hall.
  destruct (strict_ne_string (id_of c) id) eqn:E; [done|].
  apply strict_ne_string_false in E. by apply Hall in Hc.
Qed.

Lemma filter_ids_NoDup (id : string) (l : list Campaign) :
  NoDup (id_of <$> l) ->
  NoDup (id_of <$> List.filter (fun c => strict_ne_string (id_of c) id) l).
Proof.
  induction l as [|c l IH]; cbn; [done|].
  intros [Hc Hl]%NoDup_cons.
  destruct (strict_ne_string (id_of c) id); cbn; [|auto].
  apply NoDup_cons. split; [|auto].
  intros Hin. apply Hc.
  apply list_elem_of_fmap in Hin as (c' & -> & Hc').
  apply list_elem_of_fmap_2.
  by apply list_elem_of_In, filter_In in Hc' as [?%list_elem_of_In _].
Qed.

(** X1.  In every world the component can be in (right after mounting,
    and after any sequence of adds, removes, sort clicks and modal
    changes) the entry [campaigns] of the storage is the serialisation of
    the whole collection. *)
Theorem persisted_copy_invariant (w : World) :
  reachable w ->
  localStorage w !! "campaigns" = Some (JSON_stringify (items w)).
Proof. intros Hw. by apply reachable_synced. Qed.

(** X2.  A sort click and a change of the modal write nothing to the
    storage and leave the collection as it is, down to the array the
    [campaigns] cell refers to. *)
Theorem sort_and_modal_keep_data (e : Event) (w : World) :
  reachable w -> is_mutation e = false ->
  items (dispatch e w) = items w
  /\ localStorage (dispatch e w) = localStorage w
  /\ campaigns (state (dispatch e w)) = campaigns (state w).
Proof.
  intros [Hwf _]%reachable_synced He.
  destruct (dispatch_other e w Hwf He) as [Hi Hls].
  split_and!; [done|done|].
  unfold dispatch. destruct e; try done; cbn [handle];
    rewrite rerender_state; unfold handleSort; by destruct (Key_eqb _ _).
Qed.

(** X3.  Removing an id that no record of the collection carries changes
    nothing: the collection keeps its records and their order, and the
    storage, rewritten, holds what it held. *)
Theorem remove_missing_id (id : string) (w : World) :
  reachable w ->
  Forall (fun c => id_of c <> VStr id) (items w) ->
  items (dispatch (DeleteCampaign id) w) = items w
  /\ localStorage (dispatch (DeleteCampaign id) w) = localStorage w.
Proof.
  intros [Hwf Hsync]%reachable_synced Hall.
  assert (Hi : items (dispatch (DeleteCampaign id) w) = items w).
  { rewrite dispatch_delete_items. by apply filter_other_ids. }
  split; [done|].
  rewrite dispatch_mutation_storage by done. rewrite Hi.
  by apply insert_id.
Qed.

(** X10.  Adding a campaign whose id is a string that no record carries,
    and then removing that id, gives back the collection of before. *)
Theorem add_then_remove (c : Campaign) (id : string) (w : World) :
  id_of c = VStr id ->
  Forall (fun c' => id_of c' <> VStr id) (items w) ->
  items (dispatch (DeleteCampaign id) (dispatch (AddCampaign c) w))
  = items w.
Proof.
  intros Hc Hall.
  rewrite dispatch_delete_items, dispatch_add_items, List.filter_app.
  rewrite filter_other_ids by done. cbn.
  assert (E : strict_ne_string (id_of c) id = false)
    by by apply strict_ne_string_false.
  rewrite E. apply app_nil_r.
Qed.

(** X11.  Removing the same id a second time changes nothing more. *)
Theorem remove_twice (id : string) (w : World) :
  items (dispatch (DeleteCampaign id) (dispatch (DeleteCampaign id) w))
  = items (dispatch (DeleteCampaign id) w).
Proof.
  rewrite !dispatch_delete_items.
  apply forallb_filter_id, forallb_forall.
  by intros c [_ Hc]%filter_In.
Qed.

(** X12.  Pairwise distinct ids stay pairwise distinct under every event,
    provided a campaign that is added carries an id that no record of the
    collection has. *)
Theorem distinct_ids_preserved (e : Event) (w : World) :
  reachable w ->
  NoDup (id_of <$> items w) ->
  (forall c, e = AddCampaign c -> id_of c ∉ id_of <$> items w) ->
  NoDup (id_of <$> items (dispatch e w)).
Proof.
  intros [Hwf _]%reachable_synced Hnd Hfresh.
  destruct e as [c|id|f|b].
  - rewrite dispatch_add_items, fmap_app. apply NoDup_app.
    split_and!; [done| |apply NoDup_singleton].
    intros v Hv Hc%list_elem_of_singleton. subst v.
    by apply (Hfresh c eq_refl).
  - rewrite dispatch_delete_items. by apply filter_ids_NoDup.
  - by destruct (dispatch_other (SortBy f) w Hwf eq_refl) as [-> _].
  - by destruct (dispatch_other (SetModal b) w Hwf eq_refl) as [-> _].
Qed.

(** X8.  Two clicks on the header of the active sort field bring the
    state cells back to what they were, and with them the view. *)
Theorem sort_click_twice (w : World) :
  reachable w ->
  let f := sortField (state w) in
  let w2 := dispatch (SortBy f) (dispatch (SortBy f) w) in
  handleSort f (handleSort f (state w)) = state w
  /\ state w2 = state w
  /\ items w2 = items w
  /\ view w2 = view w.
Proof.
  intros Hw f w2.
  assert (Hd : handleSort f (handleSort f (state w)) = state w).
  { unfold f, handleSort. rewrite Key_eqb_refl. cbn. rewrite Key_eqb_refl.
    destruct (state w) as [r k dir m]. by destruct dir. }
  pose proof (reachable_dispatch (SortBy f) w Hw) as Hw1.
  pose proof (reachable_dispatch (SortBy f) _ Hw1) as Hw2. fold w2 in Hw2.
  assert (Hs1 : state (dispatch (SortBy f) w) = handleSort f (state w)).
  { unfold dispatch. cbn [handle]. apply rerender_state. }
  assert (Hs2 : state w2 = state w).
  { unfold w2, dispatch at 1. cbn [handle].
    by rewrite rerender_state, Hs1. }
  assert (Hi : items w2 = items w).
  { pose proof (reachable_synced _ Hw) as [Hwf _].
    pose proof (reachable_synced _ Hw1) as [Hwf1 _].
    unfold w2.
    destruct (dispatch_other (SortBy f) _ Hwf1 eq_refl) as [-> _].
    by destruct (dispatch_other (SortBy f) _ Hwf eq_refl) as [-> _]. }
  split_and!; try done.
  by rewrite (reachable_view w2 Hw2), (reachable_view w Hw), Hs2, Hi.
Qed.

(** X7.  Whatever the storage holds, a component that mounts starts
    sorted by name, ascending, with the modal closed: the sort settings
    are not stored.  Mounting rewrites the entry [campaigns] with the
    serialisation of the collection it loaded and touches no other
    entry. *)
Theorem mount_initial (ls : Storage) (w : World) :
  mount ls = Running w ->
  sortField (state w) = K_name
  /\ sortDirection (state w) = asc
  /\ isModalOpen (state w) = false
  /\ localStorage w = <["campaigns" := JSON_stringify (items w)]> ls.
Proof.
  intros Hm. destruct (mount_running ls w Hm) as (Hf & Hd & Hmod & _).
  split_and!; try done.
  pose proof (mount_cases ls) as Hc.
  destruct (load_effect ls) as [[v|]|e]; [| |congruence].
  - destruct (as_records v) as [l|]; [|congruence].
    destruct Hc as (w' & Hw' & _ & Hi & Hls).
    assert (w' = w) as -> by congruence. by rewrite Hls, Hi.
  - destruct Hc as (w' & Hw' & _ & Hi & Hls).
    assert (w' = w) as -> by congruence. by rewrite Hls, Hi.
Qed.

Lemma as_records_objects (l : list Campaign) :
  as_records (VArr (VObj <$> l)) = Some l.
Proof.
  cbn. induction l as [|c l IH]; [done|].
  cbn in *. by rewrite IH.
Qed.

(** X9.  A component that mounts on the storage another one left loads
    the same collection, and leaves the storage as it found it, whenever
    [JSON.parse] reads the serialisation of that collection back as the
    array of its records. *)
Theorem reload_restores (w : World) :
  reachable w ->
  JSON.parse (JSON_stringify (items w)) = Ok (VArr (VObj <$> items w)) ->
  exists w', mount (localStorage w) = Running w'
             /\ items w' = items w
             /\ localStorage w' = localStorage w.
Proof.
  intros [_ Hsync]%reachable_synced Hparse.
  pose proof (mount_cases (localStorage w)) as Hc.
  unfold load_effect, getItem in Hc. rewrite Hsync in Hc.
  assert (Htruthy : truthy (JSON_stringify (items w)) = true).
  { destruct (JSON_stringify (items w)); [|done].
    vm_compute in Hparse. discriminate. }
  rewrite Htruthy, Hparse, as_records_objects in Hc.
  destruct Hc as (w' & Hw' & _ & Hi & Hls).
  exists w'. split_and!; [done|done|].
  rewrite Hls. by apply insert_id.
Qed.
End EventFacts.

(** ** The table *)

(** X13.  After a click on a column header, that column shows an arrow and
    every other column the neutral icon.  The arrow points up when the
    column was not the sort field before; when it was, the arrow is the
    reverse of the one shown before. *)
Theorem sort_click_icons (d : Dashboard) (field col : Key) :
  let d' := handleSort field d in
  let icon := Table.renderSortIcon (sortField d') (sortDirection d') in
  (col <> field -> icon col = Table.ChevronUpDown)
  /\ (field <> sortField d -> icon field = Table.ArrowUp)
  /\ (field = sortField d ->
      icon field = match sortDirection d with
                   | asc => Table.ArrowDown
                   | desc => Table.ArrowUp
                   end).
Proof.
  cbn zeta. unfold Table.renderSortIcon, handleSort. split_and!.
  - intros Hne. destruct (Key_eqb field (sortField d)) eqn:E; cbn.
    + apply Key_eqb_eq in E. rewrite <- E, Key_eqb_ne; done.
    + rewrite Key_eqb_ne; done.
  - intros Hne. rewrite (Key_eqb_ne _ _ Hne). cbn.
    by rewrite Key_eqb_refl.
  - intros ->. rewrite Key_eqb_refl. cbn. rewrite Key_eqb_refl.
    by destruct (sortDirection d).
Qed.

(** X14.  Among the column headers exactly one shows an arrow, the one of
    the sort field; when the sort field is [id], which has no column, none
    does. *)
Theorem one_arrow (d : Dashboard) :
  List.filter
    (fun col => Table.is_arrow
                  (Table.renderSortIcon (sortField d) (sortDirection d) col))
    Table.columns
  = if Key_eqb (sortField d) K_id then [] else [sortField d].
Proof. destruct d as [r f dir m]. by destruct f, dir. Qed.

Section TableFacts.
Context `{Host}.

Lemma profit_is_comparison_value (c : Campaign) :
  comparison_value K_profit c = VNum (Table.profit c).
Proof. done. Qed.

(** X16.  The profit a row shows is the value the sort by profit compares
    by, and the row is green exactly when 0 is less than it.  So in a view
    sorted by profit, with no profit NaN, losses and gains are not mixed:
    ascending, every row after a green one is green; descending, every
    row before a green one is green. *)
Theorem profit_column (w : World) :
  (forall c,
      comparison_value K_profit c = VNum (Table.profit c)
      /\ Table.isProfitable c
         = js_lt (VNum 0) (comparison_value K_profit c))
  /\ (reachable w -> sortField (state w) = K_profit ->
      Forall (fun c => is_nan (Table.profit c) = false) (items w) ->
      StronglySorted
        (fun a b =>
           match sortDirection (state w) with
           | asc => Table.isProfitable a = true -> Table.isProfitable b = true
           | desc => Table.isProfitable b = true -> Table.isProfitable a = true
           end) (view w)).
Proof.
  split; [done|]. intros Hw Hf Hnan.
  assert (Hview : Forall (fun c => is_nan (Table.profit c) = false) (view w)).
  { by rewrite (reachable_view w Hw), Array_sort_perm. }
  assert (Hsorted : StronglySorted
                      (in_order K_profit (sortDirection (state w))) (view w)).
  { rewrite (reachable_view w Hw), Hf. apply Array_sort_in_order. left.
    eapply Forall_impl; [exact Hnan|]. intros c Hc.
    exists (Table.profit c). done. }
  eapply StronglySorted_impl_on; [exact Hview| |exact Hsorted].
  intros a b Ha Hb. unfold in_order, Table.isProfitable.
  rewrite !profit_is_comparison_value, !js_lt_numbers.
  destruct (sortDirection (state w)); intros Hab Hpos.
  - by apply (float_ltb_le_trans _ (Table.profit a)).
  - by apply (float_ltb_le_trans _ (Table.profit b)).
Qed.

(** X17.  The delete button of a row removes that row's campaign from
    the collection; records with another id stay, and no record
    appears. *)
Theorem delete_click_removes (c : Campaign) (e : Event) (w : World) :
  Table.delete_click c = Some e ->
  (c ∉ items (dispatch e w))
  /\ (forall c', c' ∈ items w -> id_of c' <> id_of c ->
                 c' ∈ items (dispatch e w))
  /\ (forall c', c' ∈ items (dispatch e w) -> c' ∈ items w).
Proof.
  unfold Table.delete_click. fold (id_of c).
  destruct (id_of c) as [| | | |id| |] eqn:Hid; try done.
  intros [= <-]. rewrite dispatch_delete_items. split_and!.
  - intros [_ Hc]%list_elem_of_In%filter_In.
    rewrite Hid in Hc. cbn in Hc. by rewrite String.eqb_refl in Hc.
  - intros c' Hc' Hne. apply list_elem_of_In, filter_In.
    split; [by apply list_elem_of_In|].
    destruct (strict_ne_string (id_of c') id) eqn:E; [done|].
    by apply strict_ne_string_false in E.
  - by intros c' [?%list_elem_of_In _]%list_elem_of_In%filter_In.
Qed.
End TableFacts.

(** ** The form *)

Section FormFacts.
Context `{Host}.

Lemma TimeClip_nan (t : float) : is_nan t = true -> TimeClip t = nan.
Proof. intros Ht. unfold TimeClip. by rewrite Ht. Qed.

(** X18.  The refinement of the schema lets a pair of dates through only
    if both have a time value and the end is not before the start; a date
    that [Date.parse] does not read is rejected, whichever of the two it
    is. *)
Theorem dates_in_order_valid (data : Form.CampaignFormValues) :
  let start := Date_getTime (VStr (Form.startDate data)) in
  let stop := Date_getTime (VStr (Form.endDate data)) in
  (Form.dates_in_order data = true ->
     is_nan start = false /\ is_nan stop = false
     /\ (stop <? start)%float = false)
  /\ (is_nan (Date_parse (Form.startDate data)) = true
      \/ is_nan (Date_parse (Form.endDate data)) = true ->
      Form.dates_in_order data = false).
Proof.
  cbn zeta. unfold Form.dates_in_order. split.
  - apply float_leb_ordered.
  - intros Hnan. apply float_leb_nan. unfold Date_getTime. cbn.
    destruct Hnan as [Hn | Hn]; [left | right];
      by rewrite (TimeClip_nan _ Hn).
Qed.

Lemma newCampaign_get (uuid : string) (v : Form.CampaignFormValues) :
  get (Form.newCampaign uuid v) "id" = VStr uuid
  /\ get (Form.newCampaign uuid v) "name" = VStr (Form.name v)
  /\ get (Form.newCampaign uuid v) "startDate" = VStr (Form.startDate v)
  /\ get (Form.newCampaign uuid v) "endDate" = VStr (Form.endDate v)
  /\ get (Form.newCampaign uuid v) "clicks" = VNum (Form.clicks v)
  /\ get (Form.newCampaign uuid v) "cost" = VNum (Form.cost v)
  /\ get (Form.newCampaign uuid v) "revenue" = VNum (Form.revenue v)
  /\ Form.newCampaign uuid v !! "profit" = None.
Proof. by split_and!. Qed.

(** The comparison value of a record built by the form, by sort field. *)
Lemma newCampaign_comparison_value (uuid : string)
    (v : Form.CampaignFormValues) (f : Key) :
  comparison_value f (Form.newCampaign uuid v)
  = match f with
    | K_id => VStr uuid
    | K_name => VStr (Form.name v)
    | K_startDate => VNum (Date_getTime (VStr (Form.startDate v)))
    | K_endDate => VNum (Date_getTime (VStr (Form.endDate v)))
    | K_clicks => VNum (Form.clicks v)
    | K_cost => VNum (Form.cost v)
    | K_revenue => VNum (Form.revenue v)
    | K_profit => VNum (Form.revenue v - Form.cost v)%float
    end.
Proof. by destruct f. Qed.

(** X19.  For a record built by the form the fallback to 0 never applies:
    whatever the sort field, the resolved value is neither undefined nor
    null and is the value compared.  The profit its row shows is the
    revenue minus the cost that were entered. *)
Theorem newCampaign_no_fallback (uuid : string)
    (v : Form.CampaignFormValues) (f : Key) :
  comparison_value f (Form.newCampaign uuid v)
  = resolved f (Form.newCampaign uuid v)
  /\ resolved f (Form.newCampaign uuid v) <> VUndefined
  /\ resolved f (Form.newCampaign uuid v) <> VNull
  /\ Table.profit (Form.newCampaign uuid v)
     = (Form.revenue v - Form.cost v)%float
  /\ id_of (Form.newCampaign uuid v) = VStr uuid.
Proof. by destruct f. Qed.

Lemma built_by_form_kind (f : Key) (c : Campaign) :
  built_by_form c -> f <> K_profit ->
  if plain_field f && negb (Key_eqb f K_id) && negb (Key_eqb f K_name)
     || negb (plain_field f)
  then is_number (comparison_value f c)
  else is_string (comparison_value f c).
Proof.
  intros (uuid & v & -> & Hs) Hf.
  rewrite newCampaign_comparison_value.
  unfold Form.satisfies_schema in Hs.
  repeat (apply andb_prop in Hs as [Hs ?]).
  match goal with H : Form.dates_in_order v = true |- _ =>
    apply float_leb_ordered in H as (Hstart & Hstop & _) end.
  repeat match goal with H : (0 <=? _)%float = true |- _ =>
    apply float_leb_ordered in H as (_ & H & _) end.
  destruct f; cbn; try done; try (by eexists); by (eexists; split).
Qed.

(** X20.  A collection of records built by the form from values that
    satisfy the schema is shown in order under every sort field other
    than profit, in both directions. *)
Theorem form_campaigns_in_order (w : World) :
  reachable w ->
  Forall built_by_form (items w) ->
  sortField (state w) <> K_profit ->
  StronglySorted (in_order (sortField (state w)) (sortDirection (state w)))
    (view w).
Proof.
  intros Hw Hbuilt Hf. rewrite (reachable_view w Hw).
  apply Array_sort_in_order. unfold one_kind.
  destruct (plain_field (sortField (state w))
            && negb (Key_eqb (sortField (state w)) K_id)
            && negb (Key_eqb (sortField (state w)) K_name)
            || negb (plain_field (sortField (state w)))) eqn:E.
  - left. eapply Forall_impl; [exact Hbuilt|]. intros c Hc.
    pose proof (built_by_form_kind _ c Hc Hf) as Hk. by rewrite E in Hk.
  - right. eapply Forall_impl; [exact Hbuilt|]. intros c Hc.
    pose proof (built_by_form_kind _ c Hc Hf) as Hk. by rewrite E in Hk.
Qed.
End FormFacts.

(** * The component at work *)

#[local] Existing Instance Sample.host.

(** An equation between closed terms, settled by evaluating its left side
    to its right side. *)
Ltac by_evaluation :=
  lazymatch goal with
  | |- _ = ?r => vm_cast_no_check (@eq_refl _ r)
  end.

Ltac pick_member H :=
  repeat (apply elem_of_cons in H as [-> | H]);
  try (apply elem_of_nil in H; destruct H).



(** A stored text that is not JSON makes the load effect, and with it the
    mounting of the component, end in a [SyntaxError]; a stored text that
    is JSON but no array is put into the [campaigns] cell as it is. *)
Lemma load_malformed_counterexample :
  load_effect ({[ "campaigns" := "not json" ]} : Storage) = Throw SyntaxError
  /\ mount ({[ "campaigns" := "not json" ]} : Storage) = Uncaught SyntaxError
  /\ load_effect ({[ "campaigns" := "42" ]} : Storage) = Ok (Some (VNum 42))
  /\ mount ({[ "campaigns" := "42" ]} : Storage) = IllTyped (VNum 42).
Proof. split_and!; vm_compute; reflexivity. Qed.

Lemma mount_load_witness :
  let absent : Storage := ∅ in
  let broken : Storage := {[ "campaigns" := "not json" ]} in
  let saved : Storage := {[ "campaigns" := JSON_stringify [Ex.a; Ex.b] ]} in
  (exists w, mount absent = Running w /\ items w = [])
  /\ JSON.parse "not json" = Throw SyntaxError
  /\ mount broken = Uncaught SyntaxError
  /\ JSON.parse (JSON_stringify [Ex.a; Ex.b])
     = Ok (VArr [VObj Ex.a; VObj Ex.b])
  /\ (exists w, mount saved = Running w /\ items w = [Ex.a; Ex.b]).
Proof.
  intros absent broken saved.
  assert (Hbroken : JSON.parse "not json" = Throw SyntaxError)
    by (vm_compute; reflexivity).
  assert (Hsaved : JSON.parse (JSON_stringify [Ex.a; Ex.b])
                   = Ok (VArr [VObj Ex.a; VObj Ex.b]))
    by (vm_compute; reflexivity).
  split_and!.
  - exact (proj2 (proj1 (mount_load absent) (or_introl eq_refl))).
  - exact Hbroken.
  - refine (proj2 (proj1 (proj2 (mount_load broken)) "not json" SyntaxError
                     _ _ Hbroken)); [vm_compute; reflexivity | discriminate].
  - exact Hsaved.
  - refine (proj2 (proj2 (proj2 (mount_load saved))
                     (JSON_stringify [Ex.a; Ex.b]) _ _ _ Hsaved));
      [vm_compute; reflexivity | vm_compute; discriminate].
Defined.

(** An add on the freshly mounted component. *)
Lemma save_after_mutation_witness :
  let w := started ∅ in
  let e := AddCampaign Ex.a in
  reachable w
  /\ is_mutation e = true
  /\ localStorage (dispatch e w) !! "campaigns"
     = Some (JSON_stringify (items (dispatch e w)))
  /\ items (dispatch e w) = [Ex.a].
Proof.
  intros w e.
  assert (Hw : reachable w).
  { apply (reachable_mount ∅). vm_compute. reflexivity. }
  split_and!; [exact Hw | reflexivity | | vm_compute; reflexivity].
  exact (proj1 (proj2 (save_after_mutation e w Hw eq_refl))).
Defined.

(** A record with revenue 500, cost 300 and a stored profit of 999 is
    compared by 200. *)
Lemma profit_comparison_value_witness :
  Ex.with_profit !! "revenue" = Some (VNum 500)
  /\ Ex.with_profit !! "cost" = Some (VNum 300)
  /\ Ex.with_profit !! "profit" = Some (VNum 999)
  /\ comparison_value K_profit Ex.with_profit = VNum 200.
Proof.
  assert (Hr : Ex.with_profit !! "revenue" = Some (VNum 500))
    by (vm_compute; reflexivity).
  assert (Hc : Ex.with_profit !! "cost" = Some (VNum 300))
    by (vm_compute; reflexivity).
  split_and!; [exact Hr | exact Hc | vm_compute; reflexivity |].
  exact (proj2 (proj2 (proj2 (profit_comparison_value Ex.with_profit)))
           500%float 300%float Hr Hc).
Defined.

(** Sorting by name ascending, then a click on [cost], then another. *)
Lemma handleSort_toggle_witness :
  let d := Ex.dashboard 1 K_name asc in
  K_cost <> sortField d
  /\ sortField (handleSort K_cost d) = K_cost
  /\ sortDirection (handleSort K_cost d) = asc
  /\ K_cost = sortField (handleSort K_cost d)
  /\ sortField (handleSort K_cost (handleSort K_cost d)) = K_cost
  /\ sortDirection (handleSort K_cost (handleSort K_cost d)) = desc.
Proof.
  intros d.
  assert (Hne : K_cost <> sortField d) by discriminate.
  assert (Heq : K_cost = sortField (handleSort K_cost d)) by reflexivity.
  pose proof (proj1 (proj2 (handleSort_toggle d K_cost)) Hne) as [H1 H2].
  pose proof (proj1 (handleSort_toggle (handleSort K_cost d) K_cost) Heq)
    as [H3 H4].
  split_and!; [exact Hne | exact H1 | exact H2 | exact Heq | exact H3
              | exact H4].
Defined.

(** The view of the two campaigns of the scenario by ascending profit is a
    new array; the collection stays [[b; a]]. *)
Lemma sortedCampaigns_frame_witness :
  let σ := Ex.store_of [Ex.b; Ex.a] in
  let d := Ex.dashboard 1 K_profit asc in
  let r := (sortedCampaigns σ d).1 in
  let σ' := (sortedCampaigns σ d).2 in
  σ !! campaigns d = Some [Ex.b; Ex.a]
  /\ σ !! r = None
  /\ r <> campaigns d
  /\ σ' !! campaigns d = Some [Ex.b; Ex.a]
  /\ deref σ' r = [Ex.a; Ex.b].
Proof.
  intros σ d r σ'.
  assert (Hl : σ !! campaigns d = Some [Ex.b; Ex.a]) by reflexivity.
  pose proof (sortedCampaigns_frame σ d _ Hl) as (H1 & H2 & H3 & _ & _).
  split_and!; [exact Hl | exact H1 | exact H2 | exact H3
              | vm_compute; reflexivity].
Defined.

(** Sorting the array of the collection itself would have changed it. *)
Example sort_in_place_writes :
  let σ := Ex.store_of [Ex.b; Ex.a] in
  deref (sort_in_place (compare_campaigns K_profit asc) 1 σ) 1%positive
  = [Ex.a; Ex.b].
Proof. vm_compute. reflexivity. Qed.

(** Two records with the id "a": one remove takes both. *)
Lemma handleDeleteCampaign_counterexample :
  let σ := Ex.store_of [Ex.a; Ex.b; Ex.a'] in
  let d := Ex.dashboard 1 K_name asc in
  length (deref σ (campaigns d)) = 3%nat
  /\ length (deref (handleDeleteCampaign "a" σ d).1
               (campaigns (handleDeleteCampaign "a" σ d).2)) = 1%nat.
Proof. split; vm_compute; reflexivity. Qed.

Lemma NoDup_ids_a_b : NoDup (id_of <$> [Ex.a; Ex.b]).
Proof.
  change (id_of <$> [Ex.a; Ex.b]) with [VStr "a"; VStr "b"].
  apply NoDup_cons. split; [|apply NoDup_singleton].
  intros Hin%list_elem_of_singleton. discriminate.
Defined.

Lemma handleDeleteCampaign_size_witness :
  let σ := Ex.store_of [Ex.a; Ex.b] in
  let d := Ex.dashboard 1 K_name asc in
  let after := deref (handleDeleteCampaign "a" σ d).1
                 (campaigns (handleDeleteCampaign "a" σ d).2) in
  NoDup (id_of <$> deref σ (campaigns d))
  /\ (length after <= 2)%nat
  /\ (2 <= S (length after))%nat.
Proof.
  intros σ d after.
  pose proof (handleDeleteCampaign_size "a" σ d) as [H1 H2].
  split_and!; [exact NoDup_ids_a_b | exact H1 | exact (H2 NoDup_ids_a_b)].
Defined.

(** With [a], [b] and a second record of id "a": removing "a" leaves
    [[b]]. *)
Lemma handleDeleteCampaign_all_witness :
  let σ := Ex.store_of [Ex.a; Ex.b; Ex.a'] in
  let d := Ex.dashboard 1 K_name asc in
  let after := deref (handleDeleteCampaign "a" σ d).1
                 (campaigns (handleDeleteCampaign "a" σ d).2) in
  after = [Ex.b]
  /\ Forall (fun c => id_of c <> VStr "a") after
  /\ (forall c, c ∈ deref σ (campaigns d) ->
                 Ex.has_cost 10 c = true -> id_of c <> VStr "a")
  /\ List.filter (Ex.has_cost 10) after = [Ex.b].
Proof.
  intros σ d after.
  pose proof (handleDeleteCampaign_all "a" σ d) as (H1 & _ & H3 & _).
  assert (Hgroup : forall c, c ∈ deref σ (campaigns d) ->
                      Ex.has_cost 10 c = true -> id_of c <> VStr "a").
  { intros c Hc Hcost.
    change (deref σ (campaigns d)) with [Ex.a; Ex.b; Ex.a'] in Hc.
    pick_member Hc; vm_compute in Hcost; try discriminate Hcost.
    vm_compute. discriminate. }
  split_and!; [vm_compute; reflexivity | exact H1 | exact Hgroup
              | exact (H3 _ Hgroup)].
Defined.

(** The two campaigns of the scenario, added to the freshly mounted
    component. *)
Lemma add_all_distinct_witness :
  let w := started ∅ in
  items w = []
  /\ NoDup (id_of <$> [Ex.a; Ex.b])
  /\ items (add_all [Ex.a; Ex.b] w) = [Ex.a; Ex.b]
  /\ NoDup (id_of <$> items (add_all [Ex.a; Ex.b] w)).
Proof.
  intros w.
  assert (Hw : items w = []) by (vm_compute; reflexivity).
  pose proof (add_all_distinct [Ex.a; Ex.b] w Hw NoDup_ids_a_b)
    as (H1 & _ & H3 & _).
  split_and!; [exact Hw | exact NoDup_ids_a_b | exact H1 | exact H3].
Defined.


(** ** The scenario of the specification *)

(** On an empty storage: add [a]; sort by profit: one record, compared by
    30.  Add [b] (profit 90); sort by profit again, which is now
    descending: [b] comes first. *)
Example scenario :
  let w1 := dispatch (AddCampaign Ex.a) (started ∅) in
  let w2 := dispatch (SortBy K_profit) w1 in
  let w3 := dispatch (AddCampaign Ex.b) w2 in
  let w4 := dispatch (SortBy K_profit) w3 in
  view w2 = [Ex.a]
  /\ comparison_value K_profit Ex.a = VNum 30
  /\ comparison_value K_profit Ex.b = VNum 90
  /\ sortDirection (state w2) = asc
  /\ view w3 = [Ex.a; Ex.b]
  /\ sortDirection (state w4) = desc
  /\ view w4 = [Ex.b; Ex.a]
  /\ items w4 = [Ex.a; Ex.b]
  /\ localStorage w4 !! "campaigns" = Some (JSON_stringify [Ex.a; Ex.b]).
Proof. cbv zeta. split_and!; by_evaluation. Qed.

(** What was saved is what the next mount loads. *)
Example reload :
  let w := add_all [Ex.a; Ex.b] (started ∅) in
  items (started (localStorage w)) = [Ex.a; Ex.b].
Proof. cbv zeta. by_evaluation. Qed.

(** ** More of the component at work *)

Lemma reachable_started_empty : reachable (started ∅).
Proof. apply (reachable_mount ∅). by_evaluation. Defined.

Lemma reachable_sample_world : reachable sample_world.
Proof. repeat apply reachable_dispatch. exact reachable_started_empty. Defined.

Lemma sample_world_items : items sample_world = [Ex.a; Ex.b].
Proof. by_evaluation. Defined.

Lemma persisted_copy_invariant_witness :
  reachable sample_world
  /\ localStorage sample_world !! "campaigns"
     = Some (JSON_stringify (items sample_world)).
Proof.
  split; [exact reachable_sample_world|].
  exact (persisted_copy_invariant sample_world reachable_sample_world).
Defined.

Lemma sort_and_modal_keep_data_witness :
  reachable sample_world
  /\ is_mutation (SortBy K_name) = false
  /\ items (dispatch (SortBy K_name) sample_world) = items sample_world
  /\ localStorage (dispatch (SortBy K_name) sample_world)
     = localStorage sample_world.
Proof.
  pose proof (sort_and_modal_keep_data (SortBy K_name) sample_world
                reachable_sample_world eq_refl) as (H1 & H2 & _).
  split_and!; [exact reachable_sample_world | reflexivity | exact H1
              | exact H2].
Defined.

Lemma no_id_zzz :
  Forall (fun c => id_of c <> VStr "zzz") (items sample_world).
Proof.
  rewrite sample_world_items.
  repeat constructor; vm_compute; discriminate.
Defined.

Lemma remove_missing_id_witness :
  reachable sample_world
  /\ Forall (fun c => id_of c <> VStr "zzz") (items sample_world)
  /\ items (dispatch (DeleteCampaign "zzz") sample_world)
     = items sample_world
  /\ localStorage (dispatch (DeleteCampaign "zzz") sample_world)
     = localStorage sample_world.
Proof.
  pose proof (remove_missing_id "zzz" sample_world reachable_sample_world
                no_id_zzz) as [H1 H2].
  split_and!; [exact reachable_sample_world | exact no_id_zzz | exact H1
              | exact H2].
Defined.

Lemma view_rearranges_items_witness :
  reachable sample_world
  /\ view sample_world ≡ₚ items sample_world
  /\ view sample_world = [Ex.b; Ex.a].
Proof.
  split_and!; [exact reachable_sample_world | | by_evaluation].
  exact (proj1 (view_rearranges_items sample_world reachable_sample_world)).
Defined.

Lemma sample_world_one_kind :
  one_kind (sortField (state sample_world)) (items sample_world).
Proof.
  left. rewrite sample_world_items.
  change (sortField (state sample_world)) with K_cost.
  repeat constructor.
  - exists 50%float. split; by_evaluation.
  - exists 10%float. split; by_evaluation.
Defined.

(** Sorted by cost, ascending: [b] (cost 10) before [a] (cost 50). *)
Lemma view_in_order_witness :
  reachable sample_world
  /\ one_kind (sortField (state sample_world)) (items sample_world)
  /\ StronglySorted
       (in_order (sortField (state sample_world))
          (sortDirection (state sample_world))) (view sample_world).
Proof.
  split_and!; [exact reachable_sample_world | exact sample_world_one_kind |].
  exact (view_in_order sample_world reachable_sample_world
           sample_world_one_kind).
Defined.

Lemma sort_click_twice_witness :
  let w2 := dispatch (SortBy K_cost) (dispatch (SortBy K_cost) sample_world) in
  reachable sample_world
  /\ state w2 = state sample_world
  /\ view w2 = view sample_world.
Proof.
  pose proof (sort_click_twice sample_world reachable_sample_world)
    as (_ & H2 & _ & H4).
  split_and!; [exact reachable_sample_world | exact H2 | exact H4].
Defined.

Lemma mount_initial_witness :
  let ls : Storage := {[ "theme" := "dark" ]} in
  mount ls = Running (started ls)
  /\ sortField (state (started ls)) = K_name
  /\ sortDirection (state (started ls)) = asc
  /\ localStorage (started ls) !! "campaigns" = Some "[]"
  /\ localStorage (started ls) !! "theme" = Some "dark".
Proof.
  intros ls.
  assert (Hm : mount ls = Running (started ls)) by (by_evaluation).
  pose proof (mount_initial ls (started ls) Hm) as (H1 & H2 & _ & _).
  split_and!; [exact Hm | exact H1 | exact H2 | by_evaluation
              | by_evaluation].
Defined.

Lemma reload_restores_witness :
  reachable sample_world
  /\ JSON.parse (JSON_stringify (items sample_world))
     = Ok (VArr (VObj <$> items sample_world))
  /\ exists w', mount (localStorage sample_world) = Running w'
                /\ items w' = items sample_world
                /\ localStorage w' = localStorage sample_world.
Proof.
  assert (Hp : JSON.parse (JSON_stringify (items sample_world))
               = Ok (VArr (VObj <$> items sample_world)))
    by (by_evaluation).
  split_and!; [exact reachable_sample_world | exact Hp |].
  exact (reload_restores sample_world reachable_sample_world Hp).
Defined.

Lemma add_then_remove_witness :
  let w := dispatch (AddCampaign Ex.a) (started ∅) in
  id_of Ex.b = VStr "b"
  /\ Forall (fun c' => id_of c' <> VStr "b") (items w)
  /\ items (dispatch (DeleteCampaign "b") (dispatch (AddCampaign Ex.b) w))
     = items w.
Proof.
  intros w.
  assert (Hb : id_of Ex.b = VStr "b") by reflexivity.
  assert (Hall : Forall (fun c' => id_of c' <> VStr "b") (items w)).
  { change (items w) with [Ex.a]. repeat constructor.
    vm_compute. discriminate. }
  split_and!; [exact Hb | exact Hall |].
  exact (add_then_remove Ex.b "b" w Hb Hall).
Defined.

Lemma distinct_ids_preserved_witness :
  let e := AddCampaign Ex.t1 in
  reachable sample_world
  /\ NoDup (id_of <$> items sample_world)
  /\ (forall c, e = AddCampaign c -> id_of c ∉ id_of <$> items sample_world)
  /\ NoDup (id_of <$> items (dispatch e sample_world)).
Proof.
  intros e.
  assert (Hnd : NoDup (id_of <$> items sample_world)).
  { rewrite sample_world_items. exact NoDup_ids_a_b. }
  assert (Hfresh : forall c, e = AddCampaign c ->
                             id_of c ∉ id_of <$> items sample_world).
  { intros c [= <-]. rewrite sample_world_items.
    change (id_of <$> [Ex.a; Ex.b]) with [VStr "a"; VStr "b"].
    change (id_of Ex.t1) with (VStr "t1").
    intros Hin.
    repeat (apply elem_of_cons in Hin as [Heq | Hin]; [discriminate Heq|]).
    by apply elem_of_nil in Hin. }
  split_and!; [exact reachable_sample_world | exact Hnd | exact Hfresh |].
  exact (distinct_ids_preserved e sample_world reachable_sample_world
           Hnd Hfresh).
Defined.

Lemma sort_click_icons_witness :
  let d := Ex.dashboard 1 K_name asc in
  let d' := handleSort K_cost d in
  K_name <> K_cost
  /\ Table.renderSortIcon (sortField d') (sortDirection d') K_name
     = Table.ChevronUpDown
  /\ K_cost <> sortField d
  /\ Table.renderSortIcon (sortField d') (sortDirection d') K_cost
     = Table.ArrowUp.
Proof.
  intros d d'.
  assert (H1 : K_name <> K_cost) by discriminate.
  assert (H2 : K_cost <> sortField d) by discriminate.
  pose proof (sort_click_icons d K_cost K_name) as (Ha & _ & _).
  pose proof (sort_click_icons d K_cost K_cost) as (_ & Hb & _).
  split_and!; [exact H1 | exact (Ha H1) | exact H2 | exact (Hb H2)].
Defined.

Lemma empty_message_iff_empty_witness :
  reachable (started ∅)
  /\ items (started ∅) = []
  /\ Table.shows_empty_message (view (started ∅)) = true.
Proof.
  assert (Hi : items (started ∅) = []) by (by_evaluation).
  split_and!; [exact reachable_started_empty | exact Hi |].
  exact (proj2 (empty_message_iff_empty (started ∅) reachable_started_empty)
           Hi).
Defined.

(** [a] (profit 30), [b] (profit 90) and a loss, sorted by profit: the
    loss comes first. *)
Lemma profit_column_witness :
  let loss := Ex.record "l" "L" "2024-01-01" "2024-01-02" 1 9 4 in
  let w := dispatch (SortBy K_profit)
             (dispatch (AddCampaign loss) sample_world) in
  reachable w
  /\ sortField (state w) = K_profit
  /\ Forall (fun c => is_nan (Table.profit c) = false) (items w)
  /\ view w = [loss; Ex.a; Ex.b]
  /\ Table.isProfitable loss = false
  /\ StronglySorted
       (fun a b =>
          match sortDirection (state w) with
          | asc => Table.isProfitable a = true -> Table.isProfitable b = true
          | desc => Table.isProfitable b = true -> Table.isProfitable a = true
          end) (view w).
Proof.
  intros loss w.
  assert (Hw : reachable w).
  { repeat apply reachable_dispatch. exact reachable_started_empty. }
  assert (Hf : sortField (state w) = K_profit) by reflexivity.
  assert (Hnan : Forall (fun c => is_nan (Table.profit c) = false) (items w)).
  { change (items w) with [Ex.a; Ex.b; loss].
    repeat constructor; by_evaluation. }
  split_and!; [exact Hw | exact Hf | exact Hnan | by_evaluation
              | by_evaluation |].
  exact (proj2 (profit_column w) Hw Hf Hnan).
Defined.

Lemma delete_click_removes_witness :
  Table.delete_click Ex.a = Some (DeleteCampaign "a")
  /\ (Ex.a ∉ items (dispatch (DeleteCampaign "a") sample_world))
  /\ items (dispatch (DeleteCampaign "a") sample_world) = [Ex.b].
Proof.
  assert (Hc : Table.delete_click Ex.a = Some (DeleteCampaign "a"))
    by reflexivity.
  split_and!; [exact Hc | | by_evaluation].
  exact (proj1 (delete_click_removes Ex.a _ sample_world Hc)).
Defined.

Lemma dates_in_order_valid_witness :
  Form.dates_in_order sample_values = true
  /\ is_nan (Date_getTime (VStr (Form.startDate sample_values))) = false
  /\ is_nan (Date_getTime (VStr (Form.endDate sample_values))) = false.
Proof.
  assert (Hd : Form.dates_in_order sample_values = true)
    by (by_evaluation).
  pose proof (proj1 (dates_in_order_valid sample_values) Hd)
    as (H1 & H2 & _).
  split_and!; [exact Hd | exact H1 | exact H2].
Defined.

(** Two submissions of the form, then a click on the start date. *)
Lemma form_campaigns_in_order_witness :
  let later := {| Form.name := "Y"; Form.startDate := "2024-03-01";
                  Form.endDate := "2024-03-02"; Form.clicks := 1;
                  Form.cost := 2; Form.revenue := 3 |} in
  let w := dispatch (SortBy K_startDate)
             (dispatch (Form.onSubmit "u2" sample_values)
                (dispatch (Form.onSubmit "u1" later) (started ∅))) in
  reachable w
  /\ Forall built_by_form (items w)
  /\ sortField (state w) <> K_profit
  /\ view w = [Form.newCampaign "u2" sample_values;
               Form.newCampaign "u1" later]
  /\ StronglySorted
       (in_order (sortField (state w)) (sortDirection (state w))) (view w).
Proof.
  intros later w.
  assert (Hw : reachable w).
  { repeat apply reachable_dispatch. exact reachable_started_empty. }
  assert (Hb : Forall built_by_form (items w)).
  { change (items w) with [Form.newCampaign "u1" later;
                           Form.newCampaign "u2" sample_values].
    repeat constructor.
    - exists "u1", later. split; [reflexivity | by_evaluation].
    - exists "u2", sample_values.
      split; [reflexivity | by_evaluation]. }
  assert (Hf : sortField (state w) <> K_profit) by discriminate.
  split_and!; [exact Hw | exact Hb | exact Hf | by_evaluation |].
  exact (form_campaigns_in_order w Hw Hb Hf).
Defined.
